(** * Post graph (analysis/post_graph.py): keyword-correlation graph

    A shallow embedding of [PostGraph] and of the [OSINTPost] and [Edge]
    dataclasses, followed by the verification of its graph invariants and of
    its analysis functions.

    Modelling conventions.
    - A Python [str] is a [string]; [str.lower] is modelled on ASCII letters.
    - A Python [set] of strings is a [gset string]; a loop over a set visits
      [elements] of it (Python fixes no iteration order for sets).
    - A Python [dict] whose iteration order is observed by the code
      ([_nodes], [_adj], the inner adjacency dicts, [candidate_counts]) is an
      association list in insertion order, see [Module Dict].
    - A [dict] that is only looked up ([_keyword_index], the counters of
      [get_cluster_keywords]) is a [gmap].
    - Methods that mutate [self] take the state and return the new one;
      a [KeyError] is the [Raise] result. *)

From Stdlib Require Import ZArith Ascii String Sorted.
From stdpp Require Import gmap strings list fin_maps.

Local Open Scope string_scope.
Local Open Scope list_scope.

(** ** Python dictionaries with insertion order *)

Module Dict.
Section dict.
Context {V : Type}.

Definition t := list (string * V).

Definition keys (d : t) : list string := d.*1.

(** [d.get(k)] *)
Fixpoint get (d : t) (k : string) : option V :=
  match d with
  | [] => None
  | (k', v) :: d' => if decide (k' = k) then Some v else get d' k
  end.

(** [k in d] *)
Definition mem (d : t) (k : string) : bool := bool_decide (is_Some (get d k)).

(** [d[k] = v]: an existing key keeps its position, a new key goes last. *)
Fixpoint set (d : t) (k : string) (v : V) : t :=
  match d with
  | [] => [(k, v)]
  | (k', v') :: d' =>
      if decide (k' = k) then (k, v) :: d' else (k', v') :: set d' k v
  end.

(** [del d[k]] on a present key, and [d.pop(k, None)]. *)
Fixpoint remove (d : t) (k : string) : t :=
  match d with
  | [] => []
  | (k', v) :: d' =>
      if decide (k' = k) then remove d' k else (k', v) :: remove d' k
  end.

End dict.
Global Arguments t : clear implicits.
End Dict.

(** ** Data model *)

(** [str.lower] on the ASCII letters. *)
Definition lower_ascii (c : ascii) : ascii :=
  let n := nat_of_ascii c in
  if (65 <=? n)%nat && (n <=? 90)%nat then ascii_of_nat (n + 32) else c.

Fixpoint lower (s : string) : string :=
  match s with
  | EmptyString => EmptyString
  | String c s' => String (lower_ascii c) (lower s')
  end.

(** models/post.py, [OSINTPost]; [date] is kept as its ISO text. *)
Record OSINTPost := mkPost {
  post_id : string;
  date : string;
  username : string;
  text : string;
  source : string;
  url : string;
  matched_keywords : list string;
  categories : list string;
}.

(** [Edge]; [weight] is its property. *)
Record Edge := mkEdge {
  post_id_a : string;
  post_id_b : string;
  shared_keywords : gset string;
}.

Definition weight (e : Edge) : nat := size (shared_keywords e).

Record PostGraph := mkGraph {
  min_shared_keywords : Z;
  nodes : Dict.t OSINTPost;
  adj : Dict.t (Dict.t Edge);
  keyword_index : gmap string (gset string);
}.

(** [PostGraph(min_shared_keywords)] *)
Definition new_graph (T : Z) : PostGraph :=
  {| min_shared_keywords := T; nodes := []; adj := []; keyword_index := ∅ |}.

(** [set(kw.lower() for kw in post.matched_keywords)] *)
Definition post_keywords (p : OSINTPost) : gset string :=
  list_to_set (lower <$> matched_keywords p).

(** ** add_post *)

(** [candidate_counts.setdefault(other_id, set()).add(kw)] *)
Definition count_candidate (kw : string) (cc : Dict.t (gset string))
    (other_id : string) : Dict.t (gset string) :=
  Dict.set cc other_id (default ∅ (Dict.get cc other_id) ∪ {[kw]}).

(** The two nested loops over [post_keywords] and the postings lists. *)
Definition find_candidates (idx : gmap string (gset string))
    (kws : gset string) : Dict.t (gset string) :=
  foldl (λ cc kw, foldl (count_candidate kw) cc (elements (default ∅ (idx !! kw))))
        [] (elements kws).

(** The body of the edge loop: the same [Edge] goes into both slots.
    [self._adj[post_id]] is there, [setdefault] ran before the loop. *)
Definition add_edge (a : Dict.t (Dict.t Edge)) (pid other_id : string)
    (shared : gset string) : Dict.t (Dict.t Edge) :=
  let edge := mkEdge pid other_id shared in
  let a1 := Dict.set a pid (Dict.set (default [] (Dict.get a pid)) other_id edge) in
  Dict.set a1 other_id (Dict.set (default [] (Dict.get a1 other_id)) pid edge).

(** [for other_id, shared in candidate_counts.items(): ...] *)
Fixpoint link_candidates (T : Z) (pid : string) (cc : Dict.t (gset string))
    (a : Dict.t (Dict.t Edge)) (edges_created : nat)
    : Dict.t (Dict.t Edge) * nat :=
  match cc with
  | [] => (a, edges_created)
  | (other_id, shared) :: rest =>
      if (T <=? Z.of_nat (size shared))%Z
      then link_candidates T pid rest (add_edge a pid other_id shared)
                           (edges_created + 1)
      else link_candidates T pid rest a edges_created
  end.

(** [self._keyword_index.setdefault(kw, set()).add(post_id)] for each keyword *)
Definition index_post (idx : gmap string (gset string)) (pid : string)
    (kws : gset string) : gmap string (gset string) :=
  foldl (λ ix kw, <[kw := default ∅ (ix !! kw) ∪ {[pid]}]> ix) idx (elements kws).

(** [add_post]: the new state and the number of edges created. *)
Definition add_post (g : PostGraph) (post : OSINTPost) : PostGraph * nat :=
  if Dict.mem (nodes g) (post_id post) then (g, 0)
  else
    let nodes1 := Dict.set (nodes g) (post_id post) post in
    let adj1 :=
      match Dict.get (adj g) (post_id post) with
      | Some _ => adj g
      | None => Dict.set (adj g) (post_id post) []
      end in
    let kws := post_keywords post in
    let candidate_counts := find_candidates (keyword_index g) kws in
    let '(adj2, edges_created) :=
      link_candidates (min_shared_keywords g) (post_id post)
                      candidate_counts adj1 0 in
    ({| min_shared_keywords := min_shared_keywords g;
        nodes := nodes1;
        adj := adj2;
        keyword_index := index_post (keyword_index g) (post_id post) kws |},
     edges_created).

(** [add_posts]: the batch loop with its two counters. *)
Record BatchStats := mkStats { nodes_added : nat; edges_created : nat }.

Fixpoint add_posts_loop (g : PostGraph) (posts : list OSINTPost)
    (added created : nat) : PostGraph * BatchStats :=
  match posts with
  | [] => (g, mkStats added created)
  | post :: rest =>
      if Dict.mem (nodes g) (post_id post)
      then add_posts_loop g rest added created
      else
        let '(g', n) := add_post g post in
        add_posts_loop g' rest (added + 1) (created + n)
  end.

Definition add_posts (g : PostGraph) (posts : list OSINTPost)
    : PostGraph * BatchStats :=
  add_posts_loop g posts 0 0.

(** Batch insertion as the specification words it: one [add_post] call per
    document, in list order, adding up the returned counts. *)
Fixpoint add_post_each (g : PostGraph) (posts : list OSINTPost)
    : PostGraph * nat :=
  match posts with
  | [] => (g, 0)
  | post :: rest =>
      let '(g1, n) := add_post g post in
      let '(g2, m) := add_post_each g1 rest in
      (g2, n + m)
  end.

Definition has_post (g : PostGraph) (pid : string) : bool :=
  Dict.mem (nodes g) pid.

Definition get_post (g : PostGraph) (pid : string) : option OSINTPost :=
  Dict.get (nodes g) pid.

(** ** remove_post *)

Inductive exn := KeyError (k : string).

Inductive result (A : Type) :=
  | Ok (a : A)
  | Raise (e : exn).
Arguments Ok {A} a.
Arguments Raise {A} e.

#[global] Instance result_ret : MRet result := λ A a, Ok a.
#[global] Instance result_bind : MBind result := λ A B f r,
  match r with
  | Ok a => f a
  | Raise e => Raise e
  end.

(** [d[k]] *)
Definition subscript {V} (d : Dict.t V) (k : string) : result V :=
  match Dict.get d k with
  | Some v => Ok v
  | None => Raise (KeyError k)
  end.

(** [del d[k]] *)
Definition del {V} (d : Dict.t V) (k : string) : result (Dict.t V) :=
  if Dict.mem d k then Ok (Dict.remove d k) else Raise (KeyError k).

(** The loop that discards [post_id] from the postings lists and drops the
    lists that become empty. *)
Definition deindex_post (idx : gmap string (gset string)) (pid : string)
    (kws : gset string) : gmap string (gset string) :=
  foldl (λ ix kw,
           match ix !! kw with
           | Some s =>
               let s' := s ∖ {[pid]} in
               if decide (s' = ∅) then delete kw ix else <[kw := s']> ix
           | None => ix
           end)
        idx (elements kws).

(** [for neighbor_id in ...: self._adj[neighbor_id].pop(post_id, None)] *)
Fixpoint unlink_neighbors (a : Dict.t (Dict.t Edge)) (pid : string)
    (neighbor_ids : list string) : result (Dict.t (Dict.t Edge)) :=
  match neighbor_ids with
  | [] => Ok a
  | neighbor_id :: rest =>
      inner ← subscript a neighbor_id;
      unlink_neighbors (Dict.set a neighbor_id (Dict.remove inner pid)) pid rest
  end.

(** [remove_post]: the new state, or the [KeyError] of a missing adjacency
    entry. *)
Definition remove_post (g : PostGraph) (pid : string) : result PostGraph :=
  match Dict.get (nodes g) pid with
  | None => Ok g
  | Some post =>
      let kws := post_keywords post in
      let idx := deindex_post (keyword_index g) pid kws in
      a1 ← unlink_neighbors (adj g) pid
             (Dict.keys (default [] (Dict.get (adj g) pid)));
      a2 ← del a1 pid;
      Ok {| min_shared_keywords := min_shared_keywords g;
            nodes := Dict.remove (nodes g) pid;
            adj := a2;
            keyword_index := idx |}
  end.

(** ** Edge and neighbour queries *)

(** [adjacency.get(id_a, {}).get(id_b)] *)
Definition slot (a : Dict.t (Dict.t Edge)) (id_a id_b : string) : option Edge :=
  inner ← Dict.get a id_a; Dict.get inner id_b.

Definition edge_at (g : PostGraph) (id_a id_b : string) : option Edge :=
  slot (adj g) id_a id_b.

Definition get_neighbors (g : PostGraph) (pid : string)
    : list (OSINTPost * Edge) :=
  omap (λ '(neighbor_id, edge),
          neighbor ← Dict.get (nodes g) neighbor_id; Some (neighbor, edge))
       (default [] (Dict.get (adj g) pid)).

Definition get_shared_keywords (g : PostGraph) (id_a id_b : string)
    : gset string :=
  match edge_at g id_a id_b with
  | Some edge => shared_keywords edge
  | None => ∅
  end.

(** ** Graph analysis *)

(** [list.sort(key=..., reverse=True)]: a stable sort, largest key first;
    elements with equal keys keep their order. *)
Fixpoint insert_desc {A} (key : A → nat) (x : A) (l : list A) : list A :=
  match l with
  | [] => [x]
  | y :: l' =>
      if (key x <? key y)%nat then y :: insert_desc key x l' else x :: y :: l'
  end.

Definition sort_desc {A} (key : A → nat) (l : list A) : list A :=
  foldr (insert_desc key) [] l.

(** The [while queue:] loop. Each round pops one id, so the loop is driven
    by a round budget; [None] means the budget ran out before the queue
    was empty. *)
Fixpoint bfs (fuel : nat) (a : Dict.t (Dict.t Edge)) (visited : gset string)
    (queue component : list string) : option (gset string * list string) :=
  match queue with
  | [] => Some (visited, component)
  | current :: rest =>
      match fuel with
      | O => None
      | S fuel' =>
          if decide (current ∈ visited) then bfs fuel' a visited rest component
          else
            let visited' := {[current]} ∪ visited in
            let fresh :=
              filter (λ n, n ∉ visited')
                     (Dict.keys (default [] (Dict.get a current))) in
            bfs fuel' a visited' (rest ++ fresh) (component ++ [current])
      end
  end.

(** [for node_id in self._nodes: ...] *)
Fixpoint components_loop (fuel : nat) (a : Dict.t (Dict.t Edge))
    (ids : list string) (visited : gset string)
    (components : list (list string)) : option (list (list string)) :=
  match ids with
  | [] => Some components
  | node_id :: rest =>
      if decide (node_id ∈ visited)
      then components_loop fuel a rest visited components
      else
        '(visited', component) ← bfs fuel a visited [node_id] [];
        components_loop fuel a rest visited' (components ++ [component])
  end.

(** Rounds that one traversal can take: one per queued id, and an id is
    queued once at the start or once per adjacency entry of a visited id. *)
Definition bfs_budget (a : Dict.t (Dict.t Edge)) : nat :=
  S (sum_list (length <$> a.*2)).

Definition get_connected_components (g : PostGraph)
    : option (list (list string)) :=
  sort_desc length <$>
    components_loop (bfs_budget (adj g)) (adj g) (Dict.keys (nodes g)) ∅ [].

(** [get_cluster_keywords] *)
Definition count_keywords (counts : gmap string nat) (kws : list string)
    : gmap string nat :=
  foldl (λ c kw, <[lower kw := default 0 (c !! lower kw) + 1]> c) counts kws.

Definition get_cluster_keywords (g : PostGraph) (cluster_ids : list string)
    : gmap string nat :=
  foldl (λ c pid,
           match Dict.get (nodes g) pid with
           | Some post => count_keywords c (matched_keywords post)
           | None => c
           end)
        ∅ cluster_ids.

Definition node_count (g : PostGraph) : nat := length (nodes g).

Definition edge_count (g : PostGraph) : nat :=
  sum_list (length <$> (adj g).*2) / 2.

(** [items[:limit]] *)
Definition slice_to {A} (limit : Z) (l : list A) : list A :=
  if (0 <=? limit)%Z then take (Z.to_nat limit) l
  else take (length l - Z.to_nat (- limit)) l.

Definition degree_items (g : PostGraph) : list (OSINTPost * nat) :=
  omap (λ '(pid, neighbors),
          post ← Dict.get (nodes g) pid; Some (post, length neighbors))
       (adj g).

Definition get_most_connected (g : PostGraph) (limit : Z)
    : list (OSINTPost * nat) :=
  slice_to limit (sort_desc snd (degree_items g)).

(** ** Orders used to state the results of the analysis functions *)

(** Position of an id in the insertion order [l]. *)
Fixpoint rank (l : list string) (x : string) : nat :=
  match l with
  | [] => 0
  | y :: l' => if decide (y = x) then 0 else S (rank l' x)
  end.

(** Position of the earliest-inserted member of a component. *)
Definition earliest (l : list string) (component : list string) : nat :=
  foldr (λ x m, rank l x `min` m) (length l) component.

(** Largest key first; equal keys in the order [R]. *)
Definition desc_then {A} (key : A → nat) (R : A → A → Prop) (x y : A) : Prop :=
  key y < key x ∨ (key x = key y ∧ R x y).

(** Components: larger first, ties by earliest-inserted member. *)
Definition component_order (g : PostGraph) : relation (list string) :=
  desc_then length
    (λ c1 c2, earliest (Dict.keys (nodes g)) c1 < earliest (Dict.keys (nodes g)) c2).


(** How often the listed, present documents carry a keyword whose lowercase
    form is [kw]: one per list entry, absent ids contribute nothing. *)
Definition keyword_occurrences (g : PostGraph) (cluster_ids : list string)
    (kw : string) : nat :=
  sum_list
    ((λ pid, match Dict.get (nodes g) pid with
             | Some post => length (filter (λ k, lower k = kw) (matched_keywords post))
             | None => 0
             end) <$> cluster_ids).

(** [kw] is the lowercase form of a keyword that the document carries. *)
Definition carried_lowercase (p : OSINTPost) (kw : string) : Prop :=
  ∃ k, k ∈ matched_keywords p ∧ kw = lower k.

(** ** Reachable states *)

Inductive reachable (T : Z) : PostGraph → Prop :=
  | reach_new : reachable T (new_graph T)
  | reach_add_post g post :
      reachable T g → reachable T (add_post g post).1
  | reach_add_posts g posts :
      reachable T g → reachable T (add_posts g posts).1
  | reach_remove_post g pid g' :
      reachable T g → remove_post g pid = Ok g' → reachable T g'.

(** Documents that carry only keywords and an id. *)
Definition kw_post (i : string) (kws : list string) : OSINTPost :=
  mkPost i "" "" "" "" "" kws [].

(** The three documents of the worked scenario. *)
Definition doc_A : OSINTPost := kw_post "A" ["mil"; "drone"; "night"].
Definition doc_B : OSINTPost := kw_post "B" ["mil"; "drone"].
Definition doc_C : OSINTPost := kw_post "C" ["drone"; "night"; "storm"].

Definition scenario (T : Z) : PostGraph :=
  (add_posts (new_graph T) [doc_A; doc_B; doc_C]).1.

(** [add_post] called on each document in turn, starting from an empty graph. *)
Definition insert_all (T : Z) (docs : list OSINTPost) : PostGraph :=
  foldl (λ g d, (add_post g d).1) (new_graph T) docs.

(** ** Invariants and result shapes *)

(** [cc] holds, for every candidate, exactly the keywords related to it by
    [R], and holds no candidate without a keyword. *)
Definition cc_rel (cc : Dict.t (gset string)) (R : string → string → Prop)
    : Prop :=
  ∀ o, match Dict.get cc o with
       | Some s => s ≠ ∅ ∧ ∀ k, k ∈ s ↔ R o k
       | None => ∀ k, ¬ R o k
       end.

(** Every inner adjacency dict has each neighbour key once. *)
Definition inner_NoDup (a : Dict.t (Dict.t Edge)) : Prop :=
  ∀ x inner, Dict.get a x = Some inner → NoDup (Dict.keys inner).

(** The shared set of a candidate that passes the threshold test. *)
Definition qualifying (T : Z) (cc : Dict.t (gset string)) (o : string)
    : option (gset string) :=
  s ← Dict.get cc o; if (T <=? Z.of_nat (size s))%Z then Some s else None.

(** Which of [a] and [b] comes first in the insertion order [l]. *)
Fixpoint earlier_of (l : list string) (a b : string) : string :=
  match l with
  | [] => b
  | x :: l' =>
      if decide (x = a) then a
      else if decide (x = b) then b else earlier_of l' a b
  end.

(** The edge that [add_post] builds for a pair: [post_id_a] is the document
    inserted later, [post_id_b] the one found through the index. *)
Definition canon_edge (l : list string) (a b : string) (s : gset string) : Edge :=
  let e := earlier_of l a b in
  mkEdge (if decide (e = a) then b else a) e s.

(** The keywords two documents share. *)
Definition shared_of (pa pb : OSINTPost) : gset string :=
  post_keywords pa ∩ post_keywords pb.

(** The invariant of [PostGraph]: node table, adjacency and index agree, and
    the edges are exactly those that the node table and threshold call for. *)
Record wf (g : PostGraph) : Prop := {
  wf_nodes_NoDup : NoDup (Dict.keys (nodes g));
  wf_adj_keys : Dict.keys (adj g) = Dict.keys (nodes g);
  wf_node_id : ∀ i p, Dict.get (nodes g) i = Some p → post_id p = i;
  wf_index : ∀ kw i,
    i ∈ default ∅ (keyword_index g !! kw) ↔
    ∃ p, Dict.get (nodes g) i = Some p ∧ kw ∈ post_keywords p;
  wf_index_nonempty : ∀ kw, keyword_index g !! kw ≠ Some ∅;
  wf_inner : inner_NoDup (adj g);
  wf_edges : ∀ a b e,
    edge_at g a b = Some e ↔
    ∃ pa pb,
      Dict.get (nodes g) a = Some pa ∧ Dict.get (nodes g) b = Some pb ∧
      a ≠ b ∧ shared_of pa pb ≠ ∅ ∧
      (min_shared_keywords g ≤ Z.of_nat (size (shared_of pa pb)))%Z ∧
      e = canon_edge (Dict.keys (nodes g)) a b (shared_of pa pb);
}.

(** A simple undirected graph whose edges carry the live intersection of
    their endpoints' keyword sets. *)
Definition simple_graph (T : Z) (g : PostGraph) : Prop :=
  (* symmetric, with identical contents *)
  (∀ a b e, edge_at g a b = Some e → edge_at g b a = Some e) ∧
  (* no self-loops *)
  (∀ a, edge_at g a a = None) ∧
  (* one adjacency entry per node, one edge entry per neighbour *)
  NoDup (Dict.keys (adj g)) ∧
  (∀ a inner, Dict.get (adj g) a = Some inner → NoDup (Dict.keys inner)) ∧
  (* live intersection, never below the threshold *)
  (∀ a b e, edge_at g a b = Some e →
     ∃ pa pb,
       Dict.get (nodes g) a = Some pa ∧ Dict.get (nodes g) b = Some pb ∧
       shared_keywords e = post_keywords pa ∩ post_keywords pb ∧
       (T ≤ Z.of_nat (size (shared_keywords e)))%Z ∧
       ((post_id_a e = a ∧ post_id_b e = b) ∨
        (post_id_a e = b ∧ post_id_b e = a))).

(** The no-throw surface: neutral results for unknown ids. *)
Definition lenient (g : PostGraph) : Prop :=
  (∀ pid, has_post g pid = false →
     remove_post g pid = Ok g ∧ get_neighbors g pid = [] ∧
     ∀ other, get_shared_keywords g pid other = ∅ ∧
              get_shared_keywords g other pid = ∅) ∧
  (∀ pid, Dict.get (adj g) pid = Some [] → get_neighbors g pid = []) ∧
  (∀ a b, edge_at g a b = None → get_shared_keywords g a b = ∅) ∧
  (∀ pid, ∃ g', remove_post g pid = Ok g').

(** The node table that holds [docs] in order. *)
Definition node_entries (docs : list OSINTPost) : Dict.t OSINTPost :=
  (λ d, (post_id d, d)) <$> docs.


(** Adjacency entries of the ids not visited yet: with the queue length, the
    measure that each round of the traversal decreases. *)
Definition pending (a : Dict.t (Dict.t Edge)) (visited : gset string) : nat :=
  sum_list ((λ kv, if decide (kv.1 ∈ visited) then 0 else length kv.2) <$> a).

(** An ordered partition of the node ids. *)
Definition partition_in_order (g : PostGraph) (comps : list (list string)) : Prop :=
  concat comps ≡ₚ Dict.keys (nodes g) ∧
  NoDup (concat comps) ∧
  (∀ pid, has_post g pid = true ↔ ∃ c, c ∈ comps ∧ pid ∈ c) ∧
  Forall (λ c, c ≠ []) comps ∧
  StronglySorted (component_order g) comps.

(** The graph shows keywords in lowercase and in no other altered form. *)
Definition shows_lowercased (g : PostGraph) : Prop :=
  (∀ a b kw,
     kw ∈ get_shared_keywords g a b ↔
     ∃ pa pb, is_Some (edge_at g a b) ∧
              Dict.get (nodes g) a = Some pa ∧ Dict.get (nodes g) b = Some pb ∧
              carried_lowercase pa kw ∧ carried_lowercase pb kw) ∧
  (∀ ids kw,
     is_Some (get_cluster_keywords g ids !! kw) ↔
     ∃ pid p, pid ∈ ids ∧ Dict.get (nodes g) pid = Some p ∧
              carried_lowercase p kw) ∧
  (∀ p kw, (∀ k, k ∈ matched_keywords p → lower k = k) →
           carried_lowercase p kw ↔ kw ∈ matched_keywords p).

(** ** Further operations of the graph and their vocabulary *)

(** [[self._nodes[pid] for pid in comp]] *)
Fixpoint posts_of (g : PostGraph) (comp : list string)
    : result (list OSINTPost) :=
  match comp with
  | [] => Ok []
  | pid :: rest =>
      post ← subscript (nodes g) pid;
      posts ← posts_of g rest;
      Ok (post :: posts)
  end.

(** The loop of [get_clusters] over the components. *)
Fixpoint clusters_loop (g : PostGraph) (min_size : Z)
    (components : list (list string)) (clusters : list (list OSINTPost))
    : result (list (list OSINTPost)) :=
  match components with
  | [] => Ok clusters
  | comp :: rest =>
      if (min_size <=? Z.of_nat (length comp))%Z
      then
        cluster ← posts_of g comp;
        clusters_loop g min_size rest (clusters ++ [cluster])
      else clusters_loop g min_size rest clusters
  end.

(** [get_clusters]: [None] as for [get_connected_components]; a [KeyError]
    when a component names an id that has no node. *)
Definition get_clusters (g : PostGraph) (min_size : Z)
    : option (result (list (list OSINTPost))) :=
  components ← get_connected_components g;
  Some (clusters_loop g min_size components []).

(** The ids of the documents of a cluster. *)
Definition cluster_ids (cluster : list OSINTPost) : list string :=
  post_id <$> cluster.

(** [from_posts] *)
Definition from_posts (posts : list OSINTPost) (min_shared : Z) : PostGraph :=
  (add_posts (new_graph min_shared) posts).1.

(** The degree of a node: [len(self._adj.get(pid, {}))], as [get_stats]
    and [get_most_connected] take it. *)
Definition degree (g : PostGraph) (pid : string) : nat :=
  length (default [] (Dict.get (adj g) pid)).

(** The sum that [edge_count] halves. *)
Definition degree_sum (a : Dict.t (Dict.t Edge)) : nat :=
  sum_list (length <$> a.*2).

(** [v] is a key of the adjacency dict of [u]. *)
Definition adjacent (a : Dict.t (Dict.t Edge)) (u v : string) : Prop :=
  v ∈ Dict.keys (default [] (Dict.get a u)).

(** A list of ids closed under adjacency whose members all descend from one
    of them. *)
Definition linked_up (a : Dict.t (Dict.t Edge)) (c : list string) : Prop :=
  (∀ x y, x ∈ c → adjacent a x y → y ∈ c) ∧
  ∃ h, h ∈ c ∧ ∀ x, x ∈ c → rtc (adjacent a) h x.

(** Two ids joined by an edge, and ids joined by a path of edges. *)
Definition linked (g : PostGraph) (a b : string) : Prop :=
  is_Some (edge_at g a b).

Definition connected (g : PostGraph) : relation string := rtc (linked g).

Definition same_component (comps : list (list string)) (a b : string) : Prop :=
  ∃ c, c ∈ comps ∧ a ∈ c ∧ b ∈ c.

(** ** States and counts to compare with *)

(** Two states that no query tells apart: same threshold, node table and
    index, the same adjacency keys, the same edge in every slot and as many
    adjacency entries under every id. *)
Definition same_graph (g h : PostGraph) : Prop :=
  min_shared_keywords g = min_shared_keywords h ∧
  nodes g = nodes h ∧
  keyword_index g = keyword_index h ∧
  Dict.keys (adj g) = Dict.keys (adj h) ∧
  (∀ a b, edge_at g a b = edge_at h a b) ∧
  (∀ a, degree g a = degree h a).

(** The document stored under [pid], if any, carries [kw] in lowercase. *)
Definition carries (g : PostGraph) (kw pid : string) : bool :=
  match Dict.get (nodes g) pid with
  | Some post => bool_decide (kw ∈ post_keywords post)
  | None => false
  end.

(** The listed documents that are present and carry [kw] in lowercase. *)
Definition carriers (g : PostGraph) (cluster_ids : list string) (kw : string)
    : gset string :=
  list_to_set (filter (λ pid, carries g kw pid = true) cluster_ids).

(** No two entries of the keyword list have the same lowercase form. *)
Definition distinct_lowercase (p : OSINTPost) : Prop :=
  NoDup (lower <$> matched_keywords p).

(** ** Facts about dictionaries *)

Module DictFacts.
Import Dict.
Section dict.
Context {V : Type}.
Implicit Types (d : t V) (k : string) (v : V).

Lemma get_None d k : get d k = None ↔ k ∉ keys d.
Proof.
  induction d as [|[k' v] d IH]; simpl.
  - split; [intros _; apply not_elem_of_nil | done].
  - case_decide as E; rewrite not_elem_of_cons.
    + split; [done | intros [? _]; congruence].
    + rewrite IH. naive_solver.
Qed.

Lemma get_is_Some d k : is_Some (get d k) ↔ k ∈ keys d.
Proof.
  rewrite <- not_eq_None_Some, get_None.
  split; [apply dec_stable | auto].
Qed.

Lemma get_elem_of d k v : get d k = Some v → (k, v) ∈ d.
Proof.
  induction d as [|[k' v'] d IH]; simpl; [done|].
  case_decide as E.
  - intros [= ->]. subst. left.
  - intros ?. right. auto.
Qed.

Lemma elem_of_get d k v : NoDup (keys d) → (k, v) ∈ d → get d k = Some v.
Proof.
  induction d as [|[k' v'] d IH]; simpl.
  - intros _ ?%elem_of_nil. done.
  - rewrite NoDup_cons, elem_of_cons. intros [Hk Hd] [[= -> ->]|Hin].
    + by rewrite decide_True.
    + rewrite decide_False; [auto|].
      intros ->. apply Hk. apply list_elem_of_fmap. by exists (k, v).
Qed.

Lemma get_set d k v k' :
  get (set d k v) k' = if decide (k = k') then Some v else get d k'.
Proof.
  induction d as [|[k0 v0] d IH]; simpl.
  - done.
  - destruct (decide (k0 = k)) as [->|Hne]; simpl.
    + by repeat case_decide.
    + rewrite IH. repeat case_decide; congruence.
Qed.

Lemma get_set_eq d k v : get (set d k v) k = Some v.
Proof. rewrite get_set. by rewrite decide_True. Qed.

Lemma get_set_ne d k v k' : k ≠ k' → get (set d k v) k' = get d k'.
Proof. intros. rewrite get_set. by rewrite decide_False. Qed.

Lemma keys_set_present d k v : k ∈ keys d → keys (set d k v) = keys d.
Proof.
  induction d as [|[k0 v0] d IH]; simpl.
  - intros ?%elem_of_nil. done.
  - intros Hin. case_decide as E; simpl; [by subst|].
    f_equal. apply IH. apply elem_of_cons in Hin as [?|?]; congruence.
Qed.

Lemma keys_set_fresh d k v : k ∉ keys d → keys (set d k v) = keys d ++ [k].
Proof.
  induction d as [|[k0 v0] d IH]; simpl; [done|].
  rewrite not_elem_of_cons. intros [Hne Hn].
  rewrite decide_False by done. simpl. f_equal. auto.
Qed.

Lemma elem_of_keys_set d k v k' :
  k' ∈ keys (set d k v) ↔ k' = k ∨ k' ∈ keys d.
Proof.
  rewrite <- !get_is_Some, get_set. case_decide; subst.
  - split; [auto | intros _; eauto].
  - naive_solver.
Qed.

Lemma NoDup_keys_set d k v : NoDup (keys d) → NoDup (keys (set d k v)).
Proof.
  intros Hnd. destruct (decide (k ∈ keys d)) as [Hin|Hn].
  - by rewrite keys_set_present.
  - rewrite keys_set_fresh by done. apply NoDup_app.
    split_and!; [done | | apply NoDup_singleton].
    intros x Hx ->%list_elem_of_singleton. done.
Qed.

Lemma keys_remove d k : keys (remove d k) = filter (λ x, x ≠ k) (keys d).
Proof.
  induction d as [|[k0 v0] d IH]; [done|].
  change (keys ((k0, v0) :: d)) with (k0 :: keys d).
  rewrite filter_cons. cbn [remove].
  destruct (decide (k0 = k)) as [->|Hne].
  - by rewrite decide_False by auto.
  - rewrite decide_True by done.
    change (keys ((k0, v0) :: remove d k)) with (k0 :: keys (remove d k)).
    by rewrite IH.
Qed.

Lemma get_remove d k k' :
  get (remove d k) k' = if decide (k = k') then None else get d k'.
Proof.
  induction d as [|[k0 v0] d IH]; simpl.
  - by case_decide.
  - destruct (decide (k0 = k)) as [->|Hne]; simpl; rewrite IH;
      repeat case_decide; congruence.
Qed.

Lemma remove_absent d k : k ∉ keys d → remove d k = d.
Proof.
  induction d as [|[k0 v0] d IH]; simpl; [done|].
  rewrite not_elem_of_cons. intros [Hne Hn].
  rewrite decide_False by done. f_equal. auto.
Qed.

Lemma remove_set_fresh d k v : k ∉ keys d → remove (set d k v) k = d.
Proof.
  induction d as [|[k0 v0] d IH]; simpl.
  - intros _. by rewrite decide_True.
  - rewrite not_elem_of_cons. intros [Hne Hn].
    rewrite decide_False by done. simpl.
    rewrite decide_False by done. f_equal. auto.
Qed.

Lemma set_fresh d k v : k ∉ keys d → set d k v = d ++ [(k, v)].
Proof.
  induction d as [|[k0 v0] d IH]; simpl; [done|].
  rewrite not_elem_of_cons. intros [Hne Hn].
  rewrite decide_False by done. f_equal. auto.
Qed.

Lemma remove_app d1 d2 k : remove (d1 ++ d2) k = remove d1 k ++ remove d2 k.
Proof.
  induction d1 as [|[k0 v0] d1 IH]; simpl; [done|].
  case_decide; simpl; by rewrite IH.
Qed.

Lemma NoDup_keys_remove d k : NoDup (keys d) → NoDup (keys (remove d k)).
Proof. rewrite keys_remove. apply NoDup_filter. Qed.

End dict.
End DictFacts.

(** ** Candidate discovery *)

Lemma cc_rel_iff cc R R' :
  (∀ o k, R o k ↔ R' o k) → cc_rel cc R → cc_rel cc R'.
Proof.
  intros HR H o. specialize (H o). destruct (Dict.get cc o).
  - destruct H as [? H]. split; [done|]. intros k. by rewrite H.
  - intros k. by rewrite <- HR.
Qed.

Lemma cc_rel_step cc R kw o :
  cc_rel cc R →
  cc_rel (count_candidate kw cc o) (λ o' k, R o' k ∨ (o' = o ∧ k = kw)).
Proof.
  intros H o'. unfold count_candidate. rewrite DictFacts.get_set.
  specialize (H o'). case_decide as E.
  - subst o'. split; [set_solver|]. intros k.
    destruct (Dict.get cc o) as [s|]; simpl.
    + destruct H as [_ H]. rewrite elem_of_union, H. set_solver.
    + specialize (H k). set_solver.
  - destruct (Dict.get cc o') as [s|].
    + destruct H as [? H]. split; [done|]. intros k. rewrite H. naive_solver.
    + intros k [?|[? _]]; [by eapply H | congruence].
Qed.

Lemma cc_rel_postings cc R kw ids :
  cc_rel cc R →
  cc_rel (foldl (count_candidate kw) cc ids)
         (λ o k, R o k ∨ (o ∈ ids ∧ k = kw)).
Proof.
  revert cc R. induction ids as [|o ids IH]; intros cc R H; simpl.
  - eapply cc_rel_iff; [|exact H]. intros o k. set_solver.
  - eapply cc_rel_iff; [|apply IH, cc_rel_step, H].
    intros o' k. simpl. rewrite elem_of_cons. naive_solver.
Qed.

Lemma cc_rel_keywords (idx : gmap string (gset string)) cc R kws :
  cc_rel cc R →
  cc_rel (foldl (λ cc kw, foldl (count_candidate kw) cc
                            (elements (default ∅ (idx !! kw)))) cc kws)
         (λ o k, R o k ∨ (k ∈ kws ∧ o ∈ default ∅ (idx !! k))).
Proof.
  revert cc R. induction kws as [|kw kws IH]; intros cc R H; simpl.
  - eapply cc_rel_iff; [|exact H]. intros o k. set_solver.
  - eapply cc_rel_iff; [|eapply IH, cc_rel_postings, H].
    intros o k. simpl. rewrite elem_of_cons, elem_of_elements. naive_solver.
Qed.

Lemma find_candidates_rel (idx : gmap string (gset string)) kws :
  cc_rel (find_candidates idx kws)
         (λ o k, k ∈ kws ∧ o ∈ default ∅ (idx !! k)).
Proof.
  unfold find_candidates.
  eapply cc_rel_iff; [|apply cc_rel_keywords with (R := λ _ _, False)].
  - intros o k. simpl. rewrite elem_of_elements. naive_solver.
  - intros o. simpl. auto.
Qed.

Lemma NoDup_keys_postings kw cc ids :
  NoDup (Dict.keys cc) → NoDup (Dict.keys (foldl (count_candidate kw) cc ids)).
Proof.
  revert cc. induction ids as [|o ids IH]; intros cc H; simpl; [done|].
  apply IH. by apply DictFacts.NoDup_keys_set.
Qed.

Lemma find_candidates_NoDup idx kws :
  NoDup (Dict.keys (find_candidates idx kws)).
Proof.
  unfold find_candidates.
  assert (H : NoDup (Dict.keys ([] : Dict.t (gset string)))) by constructor.
  revert H. generalize ([] : Dict.t (gset string)).
  induction (elements kws) as [|kw l IH]; intros cc H; simpl; [done|].
  by apply IH, NoDup_keys_postings.
Qed.

(** ** The inverted index *)

Lemma index_post_lookup idx pid kws kw :
  index_post idx pid kws !! kw =
  if decide (kw ∈ kws) then Some (default ∅ (idx !! kw) ∪ {[pid]})
  else idx !! kw.
Proof.
  unfold index_post.
  assert (G : ∀ l (ix : gmap string (gset string)),
              foldl (λ ix kw, <[kw := default ∅ (ix !! kw) ∪ {[pid]}]> ix)
                    ix l !! kw
              = if decide (kw ∈ l) then Some (default ∅ (ix !! kw) ∪ {[pid]})
                else ix !! kw).
  { induction l as [|k l IH]; intros ix; cbn [foldl].
    - by rewrite decide_False by apply not_elem_of_nil.
    - rewrite IH. rewrite lookup_insert.
      destruct (decide (k = kw)) as [->|Hne]; simpl.
      + rewrite (decide_True (P := kw ∈ kw :: l)) by left.
        case_decide; f_equal; set_solver.
      + destruct (decide (kw ∈ l)) as [Hin|Hn].
        * rewrite decide_True; [done | by right].
        * rewrite decide_False; [done|]. rewrite not_elem_of_cons. auto. }
  rewrite G. repeat case_decide; set_solver.
Qed.

Lemma deindex_post_lookup idx pid kws kw :
  deindex_post idx pid kws !! kw =
  if decide (kw ∈ kws)
  then s ← idx !! kw; if decide (s ∖ {[pid]} = ∅) then None else Some (s ∖ {[pid]})
  else idx !! kw.
Proof.
  unfold deindex_post.
  set (f := λ (ix : gmap string (gset string)) kw,
         match ix !! kw with
         | Some s => if decide (s ∖ {[pid]} = ∅) then delete kw ix
                     else <[kw := s ∖ {[pid]}]> ix
         | None => ix
         end).
  assert (G : ∀ l (ix : gmap string (gset string)), foldl f ix l !! kw
              = if decide (kw ∈ l)
                then s ← ix !! kw;
                     if decide (s ∖ {[pid]} = ∅) then None else Some (s ∖ {[pid]})
                else ix !! kw).
  { induction l as [|k l IH]; intros ix; cbn [foldl].
    - by rewrite decide_False by apply not_elem_of_nil.
    - rewrite IH. destruct (decide (k = kw)) as [->|Hne].
      + rewrite (decide_True (P := kw ∈ kw :: l)) by left.
        assert (Hk : f ix kw !! kw =
                     s ← ix !! kw;
                     if decide (s ∖ {[pid]} = ∅) then None else Some (s ∖ {[pid]})).
        { unfold f. destruct (ix !! kw) as [s|] eqn:E; simpl; [|done].
          destruct (decide (s ∖ {[pid]} = ∅));
            [by rewrite lookup_delete_eq | by rewrite lookup_insert_eq]. }
        rewrite Hk. case_decide; [|done].
        destruct (ix !! kw) as [s|]; simpl; [|done].
        destruct (decide (s ∖ {[pid]} = ∅)) as [Hs|Hs]; simpl; [done|].
        assert (s ∖ {[pid]} ∖ {[pid]} = s ∖ {[pid]}) as -> by set_solver.
        by rewrite decide_False.
      + assert (Hk : f ix k !! kw = ix !! kw).
        { unfold f. destruct (ix !! k) as [s|]; [|done].
          destruct (decide (s ∖ {[pid]} = ∅));
            [by rewrite lookup_delete_ne | by rewrite lookup_insert_ne]. }
        rewrite Hk.
        destruct (decide (kw ∈ l)) as [Hin|Hn].
        * rewrite decide_True; [done | by right].
        * rewrite decide_False; [done|]. rewrite not_elem_of_cons. auto. }
  rewrite G. repeat case_decide; set_solver.
Qed.

(** ** Adjacency updates *)

Lemma slot_add_edge a pid o s x y :
  pid ≠ o →
  slot (add_edge a pid o s) x y =
  if decide ((x = pid ∧ y = o) ∨ (x = o ∧ y = pid))
  then Some (mkEdge pid o s) else slot a x y.
Proof.
  intros Hne. unfold slot, add_edge. rewrite !DictFacts.get_set.
  destruct (decide (o = x)) as [->|Hox]; simpl.
  - rewrite decide_False by done. rewrite DictFacts.get_set.
    destruct (decide (pid = y)) as [->|Hpy].
    + rewrite decide_True by auto. done.
    + rewrite decide_False by naive_solver. by destruct (Dict.get a x).
  - destruct (decide (pid = x)) as [->|Hpx]; simpl.
    + rewrite DictFacts.get_set. destruct (decide (o = y)) as [->|Hoy].
      * rewrite decide_True by auto. done.
      * rewrite decide_False by naive_solver. by destruct (Dict.get a x).
    + rewrite decide_False by naive_solver. done.
Qed.

Lemma keys_add_edge a pid o s :
  pid ∈ Dict.keys a → o ∈ Dict.keys a →
  Dict.keys (add_edge a pid o s) = Dict.keys a.
Proof.
  intros Hp Ho. unfold add_edge.
  rewrite DictFacts.keys_set_present; rewrite DictFacts.keys_set_present; done.
Qed.

Lemma inner_NoDup_add_edge a pid o s :
  inner_NoDup a → inner_NoDup (add_edge a pid o s).
Proof.
  intros H x inner. unfold add_edge. rewrite !DictFacts.get_set.
  assert (Hd : ∀ z, NoDup (Dict.keys (default [] (Dict.get a z)))).
  { intros z. destruct (Dict.get a z) eqn:E; simpl; [eauto | constructor]. }
  repeat case_decide; intros [= <-] || intros ?; eauto;
    repeat apply DictFacts.NoDup_keys_set; auto.
Qed.

Lemma slot_link_candidates T pid cc a n x y :
  NoDup (Dict.keys cc) → pid ∉ Dict.keys cc →
  slot (link_candidates T pid cc a n).1 x y =
  match (if decide (x = pid) then qualifying T cc y
         else if decide (y = pid) then qualifying T cc x else None) with
  | Some s => Some (mkEdge pid (if decide (x = pid) then y else x) s)
  | None => slot a x y
  end.
Proof.
  revert a n. induction cc as [|[o s] cc IH]; intros a n Hnd Hpid.
  - simpl. by repeat case_decide.
  - change (Dict.keys ((o, s) :: cc)) with (o :: Dict.keys cc) in *.
    apply NoDup_cons in Hnd as [Ho Hnd].
    apply not_elem_of_cons in Hpid as [Hpo Hpid].
    apply DictFacts.get_None in Ho.
    assert (Hq : ∀ z, qualifying T ((o, s) :: cc) z =
                      if decide (o = z)
                      then (if (T <=? Z.of_nat (size s))%Z then Some s else None)
                      else qualifying T cc z).
    { intros z. unfold qualifying. simpl. by destruct (decide (o = z)). }
    assert (Hqo : qualifying T cc o = None).
    { unfold qualifying. by rewrite Ho. }
    rewrite !Hq. cbn [link_candidates].
    destruct (T <=? Z.of_nat (size s))%Z eqn:HT.
    + rewrite IH by done. rewrite slot_add_edge by done.
      destruct (decide (x = pid)) as [->|Hx].
      * destruct (decide (o = y)) as [->|Hoy].
        -- rewrite Hqo. by rewrite decide_True by auto.
        -- destruct (qualifying T cc y); [done|].
           by rewrite decide_False by naive_solver.
      * destruct (decide (y = pid)) as [->|Hy].
        -- destruct (decide (o = x)) as [->|Hox].
           ++ rewrite Hqo. by rewrite decide_True by auto.
           ++ destruct (qualifying T cc x); [done|].
              by rewrite decide_False by naive_solver.
        -- by rewrite decide_False by naive_solver.
    + rewrite IH by done.
      destruct (decide (x = pid)) as [->|Hx].
      * destruct (decide (o = y)) as [->|Hoy]; [by rewrite Hqo | done].
      * destruct (decide (y = pid)) as [->|Hy]; [|done].
        destruct (decide (o = x)) as [->|Hox]; [by rewrite Hqo | done].
Qed.

Lemma keys_link_candidates T pid cc a n :
  pid ∈ Dict.keys a → (∀ o, o ∈ Dict.keys cc → o ∈ Dict.keys a) →
  Dict.keys (link_candidates T pid cc a n).1 = Dict.keys a.
Proof.
  revert a n. induction cc as [|[o s] cc IH]; intros a n Hp Hcc; [done|].
  cbn [link_candidates].
  assert (Ho : o ∈ Dict.keys a) by (apply Hcc; left).
  assert (Hcc' : ∀ o', o' ∈ Dict.keys cc → o' ∈ Dict.keys a).
  { intros o' ?. apply Hcc. by right. }
  destruct (T <=? Z.of_nat (size s))%Z; [|by apply IH].
  rewrite IH; rewrite ?keys_add_edge; auto.
Qed.

Lemma inner_NoDup_link_candidates T pid cc a n :
  inner_NoDup a → inner_NoDup (link_candidates T pid cc a n).1.
Proof.
  revert a n. induction cc as [|[o s] cc IH]; intros a n H; [done|].
  cbn [link_candidates]. destruct (T <=? Z.of_nat (size s))%Z; [|by apply IH].
  by apply IH, inner_NoDup_add_edge.
Qed.

(** ** The graph invariant *)

Lemma earlier_of_app_l l l' a b :
  a ∈ l ∨ b ∈ l → earlier_of (l ++ l') a b = earlier_of l a b.
Proof.
  induction l as [|x l IH]; simpl.
  - intros [?%elem_of_nil|?%elem_of_nil]; done.
  - rewrite !elem_of_cons. intros H.
    repeat case_decide; try done. apply IH. naive_solver.
Qed.

Lemma earlier_of_last_l l n b :
  n ∉ l → b ∈ l → earlier_of (l ++ [n]) n b = b.
Proof.
  induction l as [|x l IH]; simpl.
  - intros _ ?%elem_of_nil. done.
  - rewrite not_elem_of_cons, elem_of_cons. intros [Hn Hl] Hb.
    rewrite decide_False by done. case_decide; [done|].
    apply IH; naive_solver.
Qed.

Lemma earlier_of_last_r l n a :
  n ∉ l → a ∈ l → earlier_of (l ++ [n]) a n = a.
Proof.
  induction l as [|x l IH]; simpl.
  - intros _ ?%elem_of_nil. done.
  - rewrite not_elem_of_cons, elem_of_cons. intros [Hn Hl] Ha.
    case_decide; [done|]. rewrite decide_False by done.
    apply IH; naive_solver.
Qed.

Lemma earlier_of_filter l p a b :
  a ≠ p → b ≠ p →
  earlier_of (filter (λ x, x ≠ p) l) a b = earlier_of l a b.
Proof.
  intros Ha Hb. induction l as [|x l IH]; [done|].
  rewrite filter_cons. destruct (decide (x ≠ p)) as [Hx|Hx]; simpl.
  - by rewrite IH.
  - apply dec_stable in Hx. subst x.
    rewrite !decide_False by done. done.
Qed.

Lemma earlier_of_cases l a b : earlier_of l a b = a ∨ earlier_of l a b = b.
Proof. induction l; simpl; repeat case_decide; auto. Qed.

Lemma earlier_of_comm l a b :
  a ∈ l ∨ b ∈ l → earlier_of l a b = earlier_of l b a.
Proof.
  induction l as [|x l IH]; simpl.
  - intros [?%elem_of_nil|?%elem_of_nil]; done.
  - rewrite !elem_of_cons. intros H.
    repeat case_decide; try congruence. apply IH. naive_solver.
Qed.

Lemma canon_edge_comm l a b s :
  a ≠ b → a ∈ l ∨ b ∈ l → canon_edge l a b s = canon_edge l b a s.
Proof.
  intros Hne H. unfold canon_edge. rewrite (earlier_of_comm l a b) by done.
  destruct (earlier_of_cases l b a) as [->| ->];
    repeat case_decide; congruence.
Qed.

Lemma shared_of_comm pa pb : shared_of pa pb = shared_of pb pa.
Proof. unfold shared_of. set_solver. Qed.

Lemma wf_new_graph T : wf (new_graph T).
Proof.
  split; simpl; try done.
  - constructor.
  - intros kw i. rewrite lookup_empty. simpl. split; [set_solver|].
    intros (p & ? & _). done.
  - intros a b e. unfold edge_at. simpl. split; [done|].
    intros (pa & pb & ? & _). done.
Qed.

Section add_post_wf.
Context (g : PostGraph) (post : OSINTPost).
Hypothesis Hwf : wf g.
Hypothesis Hnew : Dict.get (nodes g) (post_id post) = None.

Let n := post_id post.
Let kws := post_keywords post.
Let cc := find_candidates (keyword_index g) kws.
Let adj1 := Dict.set (adj g) n [].

Lemma add_post_fresh_eq :
    add_post g post =
    ({| min_shared_keywords := min_shared_keywords g;
        nodes := Dict.set (nodes g) n post;
        adj := (link_candidates (min_shared_keywords g) n cc adj1 0).1;
        keyword_index := index_post (keyword_index g) n kws |},
     (link_candidates (min_shared_keywords g) n cc adj1 0).2).
  Proof.
    unfold add_post, Dict.mem. rewrite Hnew.
    rewrite bool_decide_eq_false_2 by (by intros [? ?]).
    assert (Dict.get (adj g) (post_id post) = None) as ->.
    { apply DictFacts.get_None. rewrite (wf_adj_keys _ Hwf). by apply DictFacts.get_None. }
    fold n kws cc adj1. by destruct (link_candidates _ _ _ _ _).
  Qed.

Lemma candidate_spec o s :
    Dict.get cc o = Some s ↔
    ∃ po, Dict.get (nodes g) o = Some po ∧ s = shared_of post po ∧ s ≠ ∅.
  Proof.
    pose proof (find_candidates_rel (keyword_index g) kws o) as H.
    fold cc in H. split.
    - intros E. rewrite E in H. destruct H as [Hne H].
      destruct (set_choose_L s Hne) as [k0 Hk0].
      apply H in Hk0 as [_ Hi]. apply (wf_index _ Hwf) in Hi as (po & Hpo & _).
      exists po. split_and!; [done | | done].
      apply set_eq. intros k. rewrite H. unfold shared_of. fold kws.
      rewrite elem_of_intersection, (wf_index _ Hwf). naive_solver.
    - intros (po & Hpo & -> & Hne).
      assert (R : ∀ k, k ∈ shared_of post po ↔
                       k ∈ kws ∧ o ∈ default ∅ (keyword_index g !! k)).
      { intros k. unfold shared_of. fold kws.
        rewrite elem_of_intersection, (wf_index _ Hwf). naive_solver. }
      destruct (Dict.get cc o) as [s'|].
      + destruct H as [_ H]. f_equal. apply set_eq. intros k.
        by rewrite H, R.
      + destruct (set_choose_L _ Hne) as [k0 Hk0]. apply R in Hk0.
        by apply H in Hk0.
  Qed.

Lemma candidate_not_self : n ∉ Dict.keys cc.
  Proof.
    intros [s Hs]%DictFacts.get_is_Some.
    apply candidate_spec in Hs as (po & Hpo & _). unfold n in Hpo. congruence.
  Qed.

Lemma candidate_is_node o : o ∈ Dict.keys cc → o ∈ Dict.keys (nodes g).
  Proof.
    intros [s Hs]%DictFacts.get_is_Some.
    apply candidate_spec in Hs as (po & Hpo & _).
    apply DictFacts.get_is_Some. eauto.
  Qed.

Lemma qualifying_spec o s :
    qualifying (min_shared_keywords g) cc o = Some s ↔
    ∃ po, Dict.get (nodes g) o = Some po ∧ s = shared_of post po ∧ s ≠ ∅ ∧
          (min_shared_keywords g ≤ Z.of_nat (size s))%Z.
  Proof.
    unfold qualifying. split.
    - destruct (Dict.get cc o) as [s'|] eqn:E; simpl; [|done].
      destruct (Z.leb_spec (min_shared_keywords g) (Z.of_nat (size s')));
        intros [= <-].
      apply candidate_spec in E as (po & ? & ? & ?). eauto 10.
    - intros (po & Hpo & Hs & Hne & HT).
      assert (E : Dict.get cc o = Some s) by (apply candidate_spec; eauto).
      rewrite E. simpl. by rewrite (proj2 (Z.leb_le _ _) HT).
  Qed.

Lemma slot_adj1 x y : slot adj1 x y = slot (adj g) x y.
  Proof.
    unfold slot, adj1. rewrite DictFacts.get_set. case_decide; [|done].
    subst x. simpl.
    assert (Dict.get (adj g) n = None) as ->; [|done].
    apply DictFacts.get_None. rewrite (wf_adj_keys _ Hwf). by apply DictFacts.get_None.
  Qed.

Lemma add_post_fresh_edges a b e :
    slot (link_candidates (min_shared_keywords g) n cc adj1 0).1 a b = Some e ↔
    ∃ pa pb,
      Dict.get (Dict.set (nodes g) n post) a = Some pa ∧
      Dict.get (Dict.set (nodes g) n post) b = Some pb ∧
      a ≠ b ∧ shared_of pa pb ≠ ∅ ∧
      (min_shared_keywords g ≤ Z.of_nat (size (shared_of pa pb)))%Z ∧
      e = canon_edge (Dict.keys (Dict.set (nodes g) n post)) a b (shared_of pa pb).
  Proof.
    pose proof (proj1 (DictFacts.get_None _ _) Hnew) as Hnl. fold n in Hnl.
    rewrite DictFacts.keys_set_fresh by done.
    rewrite slot_link_candidates
      by (apply find_candidates_NoDup || apply candidate_not_self).
    rewrite !DictFacts.get_set, slot_adj1.
    assert (Hin : ∀ z p, Dict.get (nodes g) z = Some p →
                         z ∈ Dict.keys (nodes g) ∧ z ≠ n).
    { intros z p Hz. split; [apply DictFacts.get_is_Some; eauto|].
      intros ->. unfold n in Hz. congruence. }
    destruct (decide (a = n)) as [->|Han].
    - rewrite (decide_True (P := n = n)) by done. split.
      + destruct (qualifying _ cc b) as [s|] eqn:Q.
        * intros [= <-]. apply qualifying_spec in Q as (pb & Hpb & -> & ? & ?).
          destruct (Hin _ _ Hpb) as [Hbl Hbn].
          exists post, pb. rewrite decide_False by done.
          split_and!; try done.
          unfold canon_edge. rewrite earlier_of_last_l by done.
          by rewrite decide_False by done.
        * intros Hs. apply (wf_edges _ Hwf) in Hs as (pa & _ & Hpa & _).
          unfold n in Hpa. congruence.
      + intros (pa & pb & [= <-] & Hpb & Hne & Hs & HT & ->).
        rewrite decide_False in Hpb by done.
        destruct (Hin _ _ Hpb) as [Hbl Hbn].
        assert (Q : qualifying (min_shared_keywords g) cc b = Some (shared_of post pb))
          by (apply qualifying_spec; eauto 10).
        rewrite Q. unfold canon_edge. rewrite earlier_of_last_l by done.
        by rewrite decide_False by done.
    - rewrite (decide_False (P := n = a)) by done.
      destruct (decide (b = n)) as [->|Hbn].
      + rewrite (decide_True (P := n = n)) by done. split.
        * destruct (qualifying _ cc a) as [s|] eqn:Q.
          -- intros [= <-]. apply qualifying_spec in Q as (pa & Hpa & -> & ? & ?).
             destruct (Hin _ _ Hpa) as [Hal _].
             exists pa, post. rewrite (shared_of_comm pa post).
             split_and!; try done.
             unfold canon_edge. rewrite earlier_of_last_r by done.
             by rewrite decide_True by done.
          -- intros Hs. apply (wf_edges _ Hwf) in Hs as (_ & pb & _ & Hpb & _).
             unfold n in Hpb. congruence.
        * intros (pa & pb & Hpa & [= <-] & Hne & Hs & HT & ->).
          destruct (Hin _ _ Hpa) as [Hal _].
          rewrite (shared_of_comm pa post) in *.
          assert (Q : qualifying (min_shared_keywords g) cc a = Some (shared_of post pa))
            by (apply qualifying_spec; eauto 10).
          rewrite Q. unfold canon_edge. rewrite earlier_of_last_r by done.
          by rewrite decide_True by done.
      + rewrite (decide_False (P := n = b)) by done.
        change (slot (adj g) a b) with (edge_at g a b).
        rewrite (wf_edges _ Hwf). split.
        * intros (pa & pb & Hpa & Hpb & Hne & Hs & HT & ->).
          exists pa, pb. split_and!; try done.
          unfold canon_edge. rewrite earlier_of_app_l; [done|].
          left. by eapply Hin.
        * intros (pa & pb & Hpa & Hpb & Hne & Hs & HT & ->).
          exists pa, pb. split_and!; try done.
          unfold canon_edge. rewrite earlier_of_app_l; [done|].
          left. by eapply Hin.
  Qed.

Lemma add_post_fresh_wf : wf (add_post g post).1.
  Proof.
    rewrite add_post_fresh_eq. simpl.
    pose proof (proj1 (DictFacts.get_None _ _) Hnew) as Hnl. fold n in Hnl.
    assert (Hna : n ∉ Dict.keys (adj g)) by by rewrite (wf_adj_keys _ Hwf).
    split; simpl.
    - apply DictFacts.NoDup_keys_set, Hwf.
    - rewrite keys_link_candidates.
      + unfold adj1. rewrite !DictFacts.keys_set_fresh by done.
        by rewrite (wf_adj_keys _ Hwf).
      + apply DictFacts.elem_of_keys_set. by left.
      + intros o Ho%candidate_is_node. apply DictFacts.elem_of_keys_set. right.
        by rewrite (wf_adj_keys _ Hwf).
    - intros i p. rewrite DictFacts.get_set. case_decide; [by intros [= <-]|].
      apply Hwf.
    - intros kw i. rewrite index_post_lookup, DictFacts.get_set.
      destruct (decide (n = i)) as [<-|Hni].
      + case_decide as Hk; simpl.
        * split; [eauto | set_solver].
        * rewrite (wf_index _ Hwf). split.
          -- intros (p & Hp & _). unfold n in Hp. congruence.
          -- intros (p & [= <-] & ?). done.
      + rewrite <- (wf_index _ Hwf). case_decide; simpl; set_solver.
    - intros kw. rewrite index_post_lookup. case_decide; [|apply Hwf].
      intros [= E]. set_solver.
    - apply inner_NoDup_link_candidates. intros x inner. unfold adj1.
      rewrite DictFacts.get_set. case_decide; [intros [= <-]; constructor|].
      apply Hwf.
    - apply add_post_fresh_edges.
  Qed.

End add_post_wf.

(** ** remove_post keeps the invariant and does not raise *)

Lemma unlink_neighbors_ok a pid nbrs :
  (∀ x, x ∈ nbrs → x ∈ Dict.keys a) →
  ∃ a', unlink_neighbors a pid nbrs = Ok a' ∧
        Dict.keys a' = Dict.keys a ∧
        (inner_NoDup a → inner_NoDup a') ∧
        ∀ x y, slot a' x y =
               if decide (x ∈ nbrs ∧ y = pid) then None else slot a x y.
Proof.
  revert a. induction nbrs as [|nb rest IH]; intros a Hin.
  - exists a. split_and!; done.
  - assert (Hnb : nb ∈ Dict.keys a) by (apply Hin; left).
    apply DictFacts.get_is_Some in Hnb as [inner Hinner].
    cbn [unlink_neighbors]. unfold subscript. rewrite Hinner. simpl.
    set (a1 := Dict.set a nb (Dict.remove inner pid)).
    assert (Hk1 : Dict.keys a1 = Dict.keys a).
    { apply DictFacts.keys_set_present. apply DictFacts.get_is_Some. eauto. }
    destruct (IH a1) as (a' & Ha' & Hk & Hnd & Hs).
    { intros x Hx. rewrite Hk1. apply Hin. by right. }
    exists a'. split_and!; [done | congruence | |].
    + intros H. apply Hnd. intros x i. unfold a1. rewrite DictFacts.get_set.
      case_decide; [|apply H]. intros [= <-].
      apply DictFacts.NoDup_keys_remove. eauto.
    + intros x y. rewrite Hs. unfold a1, slot. rewrite DictFacts.get_set.
      destruct (decide (nb = x)) as [->|Hne]; simpl.
      * rewrite DictFacts.get_remove, Hinner. simpl.
        destruct (decide (pid = y)) as [->|Hy].
        -- rewrite (decide_True (P := x ∈ x :: rest ∧ _)); [by case_decide|].
           split; [left | done].
        -- rewrite !decide_False by naive_solver. done.
      * destruct (decide (x ∈ rest ∧ y = pid)) as [[? ?]|Hn].
        -- rewrite decide_True; [done|]. split; [by right | done].
        -- rewrite decide_False; [done|]. rewrite elem_of_cons. naive_solver.
Qed.

Lemma slot_remove a pid x y :
  slot (Dict.remove a pid) x y = if decide (x = pid) then None else slot a x y.
Proof.
  unfold slot. rewrite DictFacts.get_remove.
  destruct (decide (pid = x)) as [->|Hne].
  - by rewrite decide_True.
  - by rewrite decide_False by auto.
Qed.

Lemma edge_at_sym g a b e : wf g → edge_at g a b = Some e → edge_at g b a = Some e.
Proof.
  intros Hwf. rewrite !(wf_edges _ Hwf).
  intros (pa & pb & Hpa & Hpb & Hne & Hs & HT & ->).
  exists pb, pa. rewrite (shared_of_comm pb pa). split_and!; try done.
  apply canon_edge_comm; [done|]. left. apply DictFacts.get_is_Some. eauto.
Qed.

Lemma edge_at_nodes g a b e :
  wf g → edge_at g a b = Some e →
  a ∈ Dict.keys (nodes g) ∧ b ∈ Dict.keys (nodes g) ∧ a ≠ b.
Proof.
  intros Hwf (pa & pb & Hpa & Hpb & Hne & _)%(wf_edges _ Hwf).
  split_and!; [| |done]; apply DictFacts.get_is_Some; eauto.
Qed.

Lemma slot_Some_inner a x y e :
  slot a x y = Some e ↔ ∃ inner, Dict.get a x = Some inner ∧ Dict.get inner y = Some e.
Proof.
  unfold slot. destruct (Dict.get a x) as [inner|]; simpl; naive_solver.
Qed.

Section remove_post_wf.
Context (g : PostGraph) (pid : string) (post : OSINTPost).
Hypothesis Hwf : wf g.
Hypothesis Hpost : Dict.get (nodes g) pid = Some post.

Let nbrs := Dict.keys (default [] (Dict.get (adj g) pid)).

Lemma elem_of_nbrs x : x ∈ nbrs ↔ is_Some (edge_at g pid x).
  Proof.
    unfold nbrs, edge_at, slot.
    destruct (Dict.get (adj g) pid) as [inner|]; simpl.
    - by rewrite DictFacts.get_is_Some.
    - split; [intros ?%elem_of_nil; done | intros [? ?]; done].
  Qed.

Lemma remove_post_present :
    ∃ a2, remove_post g pid =
            Ok {| min_shared_keywords := min_shared_keywords g;
                  nodes := Dict.remove (nodes g) pid;
                  adj := a2;
                  keyword_index :=
                    deindex_post (keyword_index g) pid (post_keywords post) |} ∧
          Dict.keys a2 = Dict.keys (Dict.remove (nodes g) pid) ∧
          inner_NoDup a2 ∧
          ∀ x y, slot a2 x y =
                 if decide (x = pid ∨ y = pid) then None else edge_at g x y.
  Proof.
    unfold remove_post. rewrite Hpost. fold nbrs.
    destruct (unlink_neighbors_ok (adj g) pid nbrs) as (a1 & -> & Hk1 & Hnd & Hs).
    { intros x [e He]%elem_of_nbrs.
      rewrite (wf_adj_keys _ Hwf). by eapply edge_at_nodes. }
    simpl. unfold del, Dict.mem.
    assert (Hp : pid ∈ Dict.keys a1).
    { rewrite Hk1, (wf_adj_keys _ Hwf). apply DictFacts.get_is_Some. eauto. }
    rewrite bool_decide_eq_true_2 by by apply DictFacts.get_is_Some.
    simpl. eexists. split; [reflexivity|]. split_and!.
    - by rewrite !DictFacts.keys_remove, Hk1, (wf_adj_keys _ Hwf).
    - intros x inner. rewrite DictFacts.get_remove. case_decide; [done|].
      apply Hnd, Hwf.
    - intros x y. rewrite slot_remove, Hs. fold (edge_at g x y).
      destruct (decide (x = pid)) as [->|Hx].
      + by rewrite decide_True by auto.
      + destruct (decide (y = pid)) as [->|Hy].
        * rewrite (decide_True (P := x = pid ∨ pid = pid)) by auto.
          case_decide as Hc; [done|].
          destruct (edge_at g x pid) as [e|] eqn:E; [|done].
          exfalso. apply Hc. split; [|done].
          apply elem_of_nbrs. exists e. by apply edge_at_sym.
        * by rewrite !decide_False by naive_solver.
  Qed.

Lemma remove_post_present_wf g' : remove_post g pid = Ok g' → wf g'.
  Proof.
    destruct remove_post_present as (a2 & -> & Hk & Hnd & Hs).
    intros [= <-]. split; simpl.
    - apply DictFacts.NoDup_keys_remove, Hwf.
    - done.
    - intros i p. rewrite DictFacts.get_remove. case_decide; [done | apply Hwf].
    - intros kw i. rewrite deindex_post_lookup, DictFacts.get_remove.
      pose proof (wf_index _ Hwf kw i) as Hi.
      assert (Hpid : i = pid → (∃ p, Dict.get (nodes g) i = Some p ∧
                                      kw ∈ post_keywords p) →
                     kw ∈ post_keywords post).
      { intros -> (p & Hp & ?). congruence. }
      destruct (decide (kw ∈ post_keywords post)) as [Hk'|Hk'].
      + assert (E : default (∅ : gset string)
                      (s ← keyword_index g !! kw;
                       if decide (s ∖ {[pid]} = ∅) then None
                       else Some (s ∖ {[pid]}))
                    = default ∅ (keyword_index g !! kw) ∖ {[pid]}).
        { destruct (keyword_index g !! kw) as [s|]; simpl; [|set_solver].
          case_decide as E; simpl; [by rewrite E | done]. }
        rewrite E, elem_of_difference, Hi.
        case_decide; [subst; set_solver|]. set_solver.
      + rewrite Hi. case_decide; [|done]. subst i. naive_solver.
    - intros kw. rewrite deindex_post_lookup. case_decide; [|apply Hwf].
      destruct (keyword_index g !! kw) as [s|]; simpl; [|done].
      destruct (decide (s ∖ {[pid]} = ∅)); [done | congruence].
    - done.
    - intros a b e. unfold edge_at. simpl. rewrite Hs, !DictFacts.get_remove.
      rewrite DictFacts.keys_remove.
      destruct (decide (a = pid)) as [->|Ha].
      + rewrite decide_True by auto. rewrite (decide_True (P := pid = pid)) by done.
        split; [done | intros (? & ? & ? & _); done].
      + destruct (decide (b = pid)) as [->|Hb].
        * rewrite decide_True by auto.
          rewrite (decide_True (P := pid = pid)) by done.
          split; [done | intros (? & ? & ? & ? & _); done].
        * rewrite !decide_False by naive_solver.
          rewrite (wf_edges _ Hwf). unfold canon_edge.
          by rewrite earlier_of_filter by done.
  Qed.

End remove_post_wf.

Lemma remove_post_absent g pid :
  Dict.get (nodes g) pid = None → remove_post g pid = Ok g.
Proof. intros H. unfold remove_post. by rewrite H. Qed.

Lemma remove_post_wf g pid g' : wf g → remove_post g pid = Ok g' → wf g'.
Proof.
  intros Hwf. destruct (Dict.get (nodes g) pid) as [post|] eqn:E.
  - by eapply remove_post_present_wf.
  - rewrite remove_post_absent by done. by intros [= <-].
Qed.

Lemma remove_post_no_raise g pid : wf g → ∃ g', remove_post g pid = Ok g'.
Proof.
  intros Hwf. destruct (Dict.get (nodes g) pid) as [post|] eqn:E.
  - destruct (remove_post_present g pid post Hwf E) as (a2 & -> & _). eauto.
  - rewrite remove_post_absent by done. eauto.
Qed.

Lemma add_post_present g post :
  is_Some (Dict.get (nodes g) (post_id post)) → add_post g post = (g, 0).
Proof.
  intros H. unfold add_post, Dict.mem. by rewrite bool_decide_eq_true_2.
Qed.

Lemma add_post_wf g post : wf g → wf (add_post g post).1.
Proof.
  intros Hwf. destruct (Dict.get (nodes g) (post_id post)) as [p|] eqn:E.
  - rewrite add_post_present by eauto. done.
  - by apply add_post_fresh_wf.
Qed.

Lemma add_post_threshold g post :
  min_shared_keywords (add_post g post).1 = min_shared_keywords g.
Proof.
  unfold add_post. destruct (Dict.mem _ _); [done|].
  by destruct (link_candidates _ _ _ _ _).
Qed.

Lemma remove_post_threshold g pid g' :
  remove_post g pid = Ok g' → min_shared_keywords g' = min_shared_keywords g.
Proof.
  unfold remove_post. destruct (Dict.get (nodes g) pid); [|by intros [= <-]].
  destruct (unlink_neighbors _ _ _); simpl; [|done].
  destruct (del _ _); simpl; [|done]. by intros [= <-].
Qed.

(** ** Batches and reachable states *)

Lemma add_posts_loop_each g posts added created :
  (add_posts_loop g posts added created).1 = (add_post_each g posts).1 ∧
  edges_created (add_posts_loop g posts added created).2 =
    created + (add_post_each g posts).2.
Proof.
  revert g added created.
  induction posts as [|post rest IH]; intros g added created; simpl.
  - split; [done | lia].
  - destruct (Dict.mem (nodes g) (post_id post)) eqn:M.
    + assert (E : add_post g post = (g, 0)).
      { apply add_post_present. by apply bool_decide_eq_true_1 in M. }
      rewrite E. destruct (IH g added created) as [-> ->].
      by destruct (add_post_each g rest).
    + destruct (add_post g post) as [g1 n].
      destruct (IH g1 (added + 1) (created + n)) as [-> ->].
      destruct (add_post_each g1 rest). simpl. split; [done | lia].
Qed.

Lemma add_post_each_wf g posts : wf g → wf (add_post_each g posts).1.
Proof.
  revert g. induction posts as [|post rest IH]; intros g Hwf; simpl; [done|].
  pose proof (add_post_wf g post Hwf) as H1.
  destruct (add_post g post) as [g1 n]. specialize (IH g1 H1).
  by destruct (add_post_each g1 rest).
Qed.

Lemma add_post_each_threshold g posts :
  min_shared_keywords (add_post_each g posts).1 = min_shared_keywords g.
Proof.
  revert g. induction posts as [|post rest IH]; intros g; simpl; [done|].
  pose proof (add_post_threshold g post) as H1.
  destruct (add_post g post) as [g1 n]. specialize (IH g1).
  destruct (add_post_each g1 rest). simpl in *. congruence.
Qed.

Lemma reachable_wf T g : reachable T g → wf g ∧ min_shared_keywords g = T.
Proof.
  induction 1 as [|g post _ [IH1 IH2]|g posts _ [IH1 IH2]|g pid g' _ [IH1 IH2] Hr].
  - split; [apply wf_new_graph | done].
  - split; [by apply add_post_wf | by rewrite add_post_threshold].
  - unfold add_posts.
    rewrite (proj1 (add_posts_loop_each g posts 0 0)).
    split; [by apply add_post_each_wf | by rewrite add_post_each_threshold].
  - split; [by eapply remove_post_wf|].
    by rewrite (remove_post_threshold _ _ _ Hr).
Qed.

(** A well-formed graph is determined by its node table and threshold, up
    to the order of the entries inside each adjacency dict. *)
Lemma wf_determined g h :
  wf g → wf h → nodes g = nodes h →
  min_shared_keywords g = min_shared_keywords h →
  (∀ a b, edge_at g a b = edge_at h a b) ∧
  keyword_index g = keyword_index h ∧
  Dict.keys (adj g) = Dict.keys (adj h).
Proof.
  intros Hg Hh Hn HT. split_and!.
  - intros a b. apply option_eq. intros e.
    rewrite (wf_edges _ Hg), (wf_edges _ Hh), Hn, HT. done.
  - apply map_eq. intros kw.
    pose proof (wf_index _ Hg kw) as H1. pose proof (wf_index _ Hh kw) as H2.
    pose proof (wf_index_nonempty _ Hg kw) as N1.
    pose proof (wf_index_nonempty _ Hh kw) as N2.
    assert (E : default ∅ (keyword_index g !! kw)
                = default ∅ (keyword_index h !! kw)).
    { apply set_eq. intros i. by rewrite H1, H2, Hn. }
    destruct (keyword_index g !! kw) as [s1|], (keyword_index h !! kw) as [s2|];
      simpl in E; congruence.
  - by rewrite (wf_adj_keys _ Hg), (wf_adj_keys _ Hh), Hn.
Qed.

Lemma scenario_reachable T : reachable T (scenario T).
Proof. apply reach_add_posts, reach_new. Qed.

Lemma insert_all_reachable T docs : reachable T (insert_all T docs).
Proof.
  unfold insert_all. induction docs as [|d docs IH] using rev_ind.
  - apply reach_new.
  - rewrite foldl_app. simpl. by apply reach_add_post.
Qed.

(** ** The worked scenario *)

Example scenario_edges :
  get_shared_keywords (scenario 2) "A" "B" = {["mil"; "drone"]} ∧
  get_shared_keywords (scenario 2) "A" "C" = {["drone"; "night"]} ∧
  edge_at (scenario 2) "B" "C" = None ∧
  (weight <$> edge_at (scenario 2) "A" "B") = Some 2 ∧
  get_shared_keywords (scenario 1) "B" "C" = {["drone"]}.
Proof. by vm_compute. Qed.

Example scenario_analysis :
  get_connected_components (scenario 2) = Some [["A"; "B"; "C"]] ∧
  get_connected_components (scenario 1) = Some [["A"; "B"; "C"]] ∧
  (λ x, (post_id x.1, x.2)) <$> get_most_connected (scenario 2) 1 = [("A", 2)].
Proof. by vm_compute. Qed.

Example scenario_remove_A :
  (g ← remove_post (scenario 2) "A"; Ok (get_connected_components g))
  = Ok (Some [["B"]; ["C"]]).
Proof. by vm_compute. Qed.

(** ** Edges and shared keywords *)

(** C1 (as the code has it). In every reachable state and for every two
    distinct inserted documents, whatever the order of their insertion, an
    edge joins them iff their lowercased keyword sets ([post_keywords], the
    set of [lower kw] over the keywords a document carries, which is what
    [add_post] compares) share at least one keyword and at least [T]
    keywords; the edge then carries exactly the intersection of the
    lowercased sets and its weight is the size of that intersection. *)
Theorem edge_iff_shared T g a b pa pb :
  reachable T g →
  Dict.get (nodes g) a = Some pa → Dict.get (nodes g) b = Some pb → a ≠ b →
  (is_Some (edge_at g a b) ↔
     (T ≤ Z.of_nat (size (shared_of pa pb)))%Z ∧ shared_of pa pb ≠ ∅) ∧
  edge_at g b a = edge_at g a b ∧
  ∀ e, edge_at g a b = Some e →
       shared_keywords e = post_keywords pa ∩ post_keywords pb ∧
       weight e = size (post_keywords pa ∩ post_keywords pb).
Proof.
  intros [Hwf HT]%reachable_wf Hpa Hpb Hne. subst T. split_and!.
  - split.
    + intros [e (pa' & pb' & ? & ? & _ & ? & ? & _)%(wf_edges _ Hwf)].
      by simplify_eq.
    + intros [? ?]. eexists. apply (wf_edges _ Hwf). eauto 10.
  - apply option_eq. intros e. split; by apply edge_at_sym.
  - intros e (pa' & pb' & ? & ? & _ & ? & ? & ->)%(wf_edges _ Hwf).
    by simplify_eq.
Qed.

Lemma edge_iff_shared_witness :
  is_Some (edge_at (scenario 2) "A" "B") ↔
    (2 ≤ Z.of_nat (size (shared_of doc_A doc_B)))%Z ∧ shared_of doc_A doc_B ≠ ∅.
Proof.
  apply (edge_iff_shared 2 (scenario 2) "A" "B" doc_A doc_B).
  - apply scenario_reachable.
  - reflexivity.
  - reflexivity.
  - discriminate.
Defined.

(** C1, the readings that fail.  With threshold 0 two documents without a
    common keyword meet the test [|A ∩ B| ≥ T], yet no edge joins them.  And
    the sets compared are the lowercased ones: with threshold 1 the
    documents carrying ["Drone"] and ["drone"] have no keyword in common as
    carried, yet an edge joins them. *)
Lemma threshold_zero_not_complete :
  (let g := insert_all 0 [kw_post "A" ["x"]; kw_post "B" ["y"]] in
   ¬ (is_Some (edge_at g "A" "B") ↔
        (0 ≤ Z.of_nat (size (post_keywords (kw_post "A" ["x"]) ∩
                             post_keywords (kw_post "B" ["y"]))))%Z)) ∧
  (let g := insert_all 1 [kw_post "A" ["Drone"]; kw_post "B" ["drone"]] in
   ¬ (is_Some (edge_at g "A" "B") ↔
        (1 ≤ Z.of_nat (size ((list_to_set (matched_keywords (kw_post "A" ["Drone"]))
                                : gset string) ∩
                             list_to_set (matched_keywords (kw_post "B" ["drone"])))))%Z)).
Proof.
  split.
  - intros g [_ H]. assert (E : edge_at g "A" "B" = None) by by vm_compute.
    rewrite E in H. destruct H as [e He]; [lia | discriminate].
  - intros g [H _].
    assert (E : is_Some (edge_at g "A" "B")) by (by eexists; vm_compute).
    apply H in E. vm_compute in E. by apply E.
Qed.

(** C2. In every state reached by [add_post], [add_posts] and [remove_post]
    calls the adjacency is symmetric with identical contents, has no
    self-loop and one entry per pair, and every stored edge carries the
    intersection of its endpoints' current keyword sets, of size at least
    the threshold. *)
Theorem reachable_simple_graph T g : reachable T g → simple_graph T g.
Proof.
  intros [Hwf HT]%reachable_wf. subst T. split_and!.
  - intros a b e. by apply edge_at_sym.
  - intros a. apply eq_None_not_Some. intros [e He].
    by destruct (edge_at_nodes _ _ _ _ Hwf He) as (_ & _ & ?).
  - rewrite (wf_adj_keys _ Hwf). apply Hwf.
  - apply Hwf.
  - intros a b e (pa & pb & Hpa & Hpb & Hne & _ & HT & ->)%(wf_edges _ Hwf).
    exists pa, pb. split_and!; try done.
    unfold canon_edge. simpl.
    destruct (earlier_of_cases (Dict.keys (nodes g)) a b) as [-> | ->].
    + right. by rewrite decide_True.
    + left. by rewrite decide_False by done.
Qed.

Lemma reachable_simple_graph_witness : simple_graph 2 (scenario 2).
Proof. apply (reachable_simple_graph 2 (scenario 2)), scenario_reachable. Defined.

(** C5. Inserting a document whose id is already a node returns 0 and leaves
    the whole state, hence the node and edge counts, as it was. *)
Theorem duplicate_insert_noop g post :
  has_post g (post_id post) = true →
  add_post g post = (g, 0) ∧
  node_count (add_post g post).1 = node_count g ∧
  edge_count (add_post g post).1 = edge_count g.
Proof.
  intros H%bool_decide_eq_true_1. by rewrite add_post_present.
Qed.

Lemma duplicate_insert_noop_witness :
  add_post (scenario 2) doc_B = (scenario 2, 0).
Proof. apply (duplicate_insert_noop (scenario 2) doc_B). reflexivity. Defined.

(** C6. [add_posts] ends in the state that one [add_post] call per document
    ends in, and reports the sum of the values those calls return. *)
Theorem add_posts_sequential g posts :
  (add_posts g posts).1 = (add_post_each g posts).1 ∧
  edges_created (add_posts g posts).2 = (add_post_each g posts).2.
Proof. apply (add_posts_loop_each g posts 0 0). Qed.

(** C7. Unknown ids give neutral results: [remove_post] returns normally and
    changes nothing, [get_neighbors] is empty (as it is for an isolated
    node), [get_shared_keywords] is empty when an id is unknown or the pair
    has no edge. No call of [remove_post] raises. *)
Theorem unknown_id_neutral T g : reachable T g → lenient g.
Proof.
  intros [Hwf _]%reachable_wf. split_and!.
  - intros pid Hp. apply bool_decide_eq_false_1 in Hp.
    apply eq_None_not_Some in Hp.
    assert (Ha : Dict.get (adj g) pid = None).
    { apply DictFacts.get_None. rewrite (wf_adj_keys _ Hwf). by apply DictFacts.get_None. }
    assert (He : ∀ o, edge_at g pid o = None ∧ edge_at g o pid = None).
    { intros o. split; apply eq_None_not_Some; intros [e He];
        destruct (edge_at_nodes _ _ _ _ Hwf He) as (H1 & H2 & _);
        by apply DictFacts.get_None in Hp. }
    split_and!.
    + by apply remove_post_absent.
    + unfold get_neighbors. by rewrite Ha.
    + intros o. unfold get_shared_keywords. by rewrite !(proj1 (He o)), !(proj2 (He o)).
  - intros pid H. unfold get_neighbors. by rewrite H.
  - intros a b H. unfold get_shared_keywords. by rewrite H.
  - intros pid. by apply remove_post_no_raise.
Qed.

Lemma unknown_id_neutral_witness : lenient (scenario 2).
Proof. apply (unknown_id_neutral 2 (scenario 2)), scenario_reachable. Defined.

(** ** Removal and re-insertion *)

Lemma keys_node_entries docs : Dict.keys (node_entries docs) = post_id <$> docs.
Proof.
  unfold Dict.keys, node_entries. rewrite <- list_fmap_compose.
  by apply list_fmap_ext.
Qed.

Lemma nodes_insert_all T docs :
  NoDup (post_id <$> docs) → nodes (insert_all T docs) = node_entries docs.
Proof.
  unfold insert_all. induction docs as [|d docs IH] using rev_ind; [done|].
  rewrite fmap_app. intros (Hnd & Hd & _)%NoDup_app.
  rewrite foldl_app. cbn [foldl]. specialize (IH Hnd).
  assert (Hn : post_id d ∉ Dict.keys (node_entries docs)).
  { rewrite keys_node_entries. intros Hin. apply (Hd _ Hin). left. }
  set (g := foldl _ _ docs) in *.
  assert (Hg : Dict.get (nodes g) (post_id d) = None).
  { rewrite IH. by apply DictFacts.get_None. }
  rewrite (add_post_fresh_eq g d); [|apply reachable_wf with T, insert_all_reachable|done].
  simpl. rewrite IH, DictFacts.set_fresh by done.
  unfold node_entries. by rewrite fmap_app.
Qed.

Lemma remove_node_entries L1 d L2 :
  NoDup (post_id <$> (L1 ++ d :: L2)) →
  Dict.remove (node_entries (L1 ++ d :: L2)) (post_id d) = node_entries (L1 ++ L2).
Proof.
  rewrite fmap_app, fmap_cons.
  intros (_ & H1 & [H2 _]%NoDup_cons)%NoDup_app.
  unfold node_entries. rewrite !fmap_app, fmap_cons, DictFacts.remove_app. simpl.
  rewrite decide_True by done.
  fold (node_entries L1) (node_entries L2).
  rewrite !DictFacts.remove_absent; [done | |]; rewrite keys_node_entries.
  - done.
  - intros Hin. apply (H1 _ Hin). left.
Qed.

Lemma link_candidates_count T pid cc a a' n :
  (link_candidates T pid cc a n).2 = (link_candidates T pid cc a' n).2.
Proof.
  revert a a' n. induction cc as [|[o s] cc IH]; intros a a' n; [done|].
  cbn [link_candidates]. destruct (T <=? Z.of_nat (size s))%Z; apply IH.
Qed.

(** Two well-formed graphs with the same node table and threshold answer a
    fresh insertion alike. *)
Lemma add_post_fresh_alike g h d :
  wf g → wf h → nodes g = nodes h →
  min_shared_keywords g = min_shared_keywords h →
  Dict.get (nodes g) (post_id d) = None →
  nodes (add_post g d).1 = nodes (add_post h d).1 ∧
  (∀ a b, edge_at (add_post g d).1 a b = edge_at (add_post h d).1 a b) ∧
  keyword_index (add_post g d).1 = keyword_index (add_post h d).1 ∧
  Dict.keys (adj (add_post g d).1) = Dict.keys (adj (add_post h d).1) ∧
  (add_post g d).2 = (add_post h d).2.
Proof.
  intros Hg Hh Hn HT Hd.
  assert (Hd' : Dict.get (nodes h) (post_id d) = None) by by rewrite <- Hn.
  destruct (wf_determined g h Hg Hh Hn HT) as (_ & Hix & _).
  assert (N : nodes (add_post g d).1 = nodes (add_post h d).1).
  { rewrite !add_post_fresh_eq by done. simpl. by rewrite Hn. }
  destruct (wf_determined (add_post g d).1 (add_post h d).1) as (He & Hi & Hk).
  - by apply add_post_wf.
  - by apply add_post_wf.
  - done.
  - by rewrite !add_post_threshold.
  - split_and!; try done.
    rewrite !add_post_fresh_eq by done. simpl. rewrite Hix, HT.
    apply link_candidates_count.
Qed.

(** Two well-formed graphs with the same node table and threshold are the
    same to every query. *)
Lemma length_same_keys {V} (d1 d2 : Dict.t V) :
  NoDup (Dict.keys d1) → NoDup (Dict.keys d2) →
  (∀ k, is_Some (Dict.get d1 k) ↔ is_Some (Dict.get d2 k)) →
  length d1 = length d2.
Proof.
  intros H1 H2 H.
  rewrite <- (length_fmap fst d1), <- (length_fmap fst d2).
  apply Permutation_length, NoDup_Permutation; [done..|].
  intros k. fold (Dict.keys d1) (Dict.keys d2).
  by rewrite <- !DictFacts.get_is_Some.
Qed.

Lemma wf_same_graph g h :
  wf g → wf h → nodes g = nodes h →
  min_shared_keywords g = min_shared_keywords h → same_graph g h.
Proof.
  intros Hg Hh Hn HT.
  destruct (wf_determined g h Hg Hh Hn HT) as (He & Hi & Hk).
  split_and!; try done.
  intros a. unfold degree.
  assert (Hs : ∀ b, Dict.get (default [] (Dict.get (adj g) a)) b
                    = Dict.get (default [] (Dict.get (adj h) a)) b).
  { intros b. specialize (He a b). unfold edge_at, slot in He.
    destruct (Dict.get (adj g) a), (Dict.get (adj h) a); simpl in *; done. }
  apply length_same_keys.
  - destruct (Dict.get (adj g) a) eqn:E; simpl; [by eapply (wf_inner _ Hg)|constructor].
  - destruct (Dict.get (adj h) a) eqn:E; simpl; [by eapply (wf_inner _ Hh)|constructor].
  - intros b. by rewrite Hs.
Qed.

(** C3. Insert [L1 ++ d :: L2] and remove [d]: the call does not raise and
    leaves the state that inserting [L1 ++ L2] alone gives, with no trace of
    [d] in the node table, the adjacency or the index.  Inserting then any
    document [d'] under the id of [d] (the same keywords or others) gives the
    state of inserting [L1 ++ L2 ++ [d']] and returns the count that the
    insertion into the graph of [L1 ++ L2] returns; with [d' = d] this is the
    graph of all the documents with [d] inserted last. *)
Theorem remove_then_reinsert T L1 d L2 :
  NoDup (post_id <$> (L1 ++ d :: L2)) →
  ∃ g1,
    remove_post (insert_all T (L1 ++ d :: L2)) (post_id d) = Ok g1 ∧
    same_graph g1 (insert_all T (L1 ++ L2)) ∧
    (∀ d', post_id d' = post_id d →
       same_graph (add_post g1 d').1 (insert_all T (L1 ++ L2 ++ [d'])) ∧
       (add_post g1 d').2 = (add_post (insert_all T (L1 ++ L2)) d').2).
Proof.
  intros Hnd.
  pose proof (insert_all_reachable T (L1 ++ d :: L2)) as [Hwf HT]%reachable_wf.
  pose proof (insert_all_reachable T (L1 ++ L2)) as [Hwf0 HT0]%reachable_wf.
  destruct (remove_post_no_raise _ (post_id d) Hwf) as [g1 Hg1].
  exists g1. split; [done|].
  assert (Hwf1 : wf g1) by (eapply remove_post_wf; [exact Hwf | exact Hg1]).
  assert (Hnd0 : NoDup (post_id <$> (L1 ++ L2))).
  { revert Hnd. rewrite !fmap_app, fmap_cons. intros Hnd.
    eapply sublist_NoDup; [exact Hnd|].
    apply sublist_app; [reflexivity | apply sublist_cons; reflexivity]. }
  assert (Hn1 : nodes g1 = nodes (insert_all T (L1 ++ L2))).
  { rewrite nodes_insert_all by done.
    rewrite <- (remove_node_entries L1 d L2) by done.
    rewrite <- (nodes_insert_all T) by done.
    assert (Hp : Dict.get (nodes (insert_all T (L1 ++ d :: L2))) (post_id d)
                 = Some d).
    { rewrite nodes_insert_all by done. apply DictFacts.elem_of_get.
      - by rewrite keys_node_entries.
      - apply list_elem_of_fmap. exists d. split; [done|].
        apply elem_of_app. right. left. }
    destruct (remove_post_present _ _ _ Hwf Hp) as (a2 & E & _).
    rewrite E in Hg1. by injection Hg1 as <-. }
  assert (Hfresh : Dict.get (nodes g1) (post_id d) = None).
  { rewrite Hn1, nodes_insert_all by done. apply DictFacts.get_None.
    rewrite keys_node_entries. revert Hnd. rewrite !fmap_app, fmap_cons.
    intros (_ & H1 & [H2 _]%NoDup_cons)%NoDup_app.
    intros [Hin|Hin]%elem_of_app; [|done]. apply (H1 _ Hin). left. }
  assert (HT1 : min_shared_keywords g1
                = min_shared_keywords (insert_all T (L1 ++ L2))).
  { rewrite HT0. by rewrite (remove_post_threshold _ _ _ Hg1). }
  split; [by apply wf_same_graph|].
  intros d' Hid. rewrite <- Hid in Hfresh.
  assert (E : insert_all T (L1 ++ L2 ++ [d'])
              = (add_post (insert_all T (L1 ++ L2)) d').1).
  { unfold insert_all. by rewrite app_assoc, foldl_app. }
  rewrite E.
  destruct (add_post_fresh_alike g1 (insert_all T (L1 ++ L2)) d')
    as (Hn & _ & _ & _ & Hc); try done.
  split; [|done].
  apply wf_same_graph; [by apply add_post_wf..|done|].
  by rewrite !add_post_threshold.
Qed.

Lemma remove_then_reinsert_witness :
  ∃ g1,
    remove_post (insert_all 2 [doc_A; doc_B; doc_C]) "B" = Ok g1 ∧
    same_graph g1 (insert_all 2 [doc_A; doc_C]) ∧
    same_graph (add_post g1 doc_B).1 (insert_all 2 [doc_A; doc_C; doc_B]).
Proof.
  destruct (remove_then_reinsert 2 [doc_A] doc_B [doc_C]) as (g1 & H1 & H2 & H3).
  - apply (bool_decide_eq_true_1 _). vm_compute. reflexivity.
  - exists g1. split; [exact H1|]. split; [exact H2|].
    exact (proj1 (H3 doc_B eq_refl)).
Defined.

(** ** The stable descending sort *)

Section sort_desc.
Context {A : Type} (key : A → nat).

Lemma insert_desc_Permutation x l : insert_desc key x l ≡ₚ x :: l.
Proof.
  induction l as [|y l IH]; simpl; [done|].
  case_match; [|done]. rewrite IH. apply Permutation_swap.
Qed.

Lemma sort_desc_Permutation l : sort_desc key l ≡ₚ l.
Proof.
  induction l as [|x l IH]; simpl; [done|].
  by rewrite insert_desc_Permutation, IH.
Qed.

Lemma insert_desc_sorted (R : A → A → Prop) x l :
  StronglySorted (desc_then key R) l → Forall (R x) l →
  StronglySorted (desc_then key R) (insert_desc key x l).
Proof.
  induction l as [|y l IH]; simpl; intros Hs Hx.
  - repeat constructor.
  - apply StronglySorted_inv in Hs as [Hs Hy].
    apply Forall_cons in Hx as [Hxy Hx].
    destruct (Nat.ltb_spec (key x) (key y)) as [Hlt|Hge].
    + constructor; [by apply IH|].
      rewrite insert_desc_Permutation. constructor; [by left | done].
    + constructor; [by constructor|].
      constructor.
      * destruct (decide (key y = key x)); [right | left; lia]. done.
      * rewrite Forall_forall in Hy, Hx |- *. intros z Hz.
        destruct (Hy z Hz) as [?|[? ?]].
        -- destruct (decide (key z = key x)); [right | left; lia].
           split; [done | by apply Hx].
        -- destruct (decide (key z = key x)); [right | left; lia].
           split; [done | by apply Hx].
Qed.

Lemma sort_desc_stable (R : A → A → Prop) l :
  StronglySorted R l → StronglySorted (desc_then key R) (sort_desc key l).
Proof.
  induction 1 as [|x l Hs IH Hx]; simpl; [constructor|].
  apply insert_desc_sorted; [done|]. by rewrite sort_desc_Permutation.
Qed.

End sort_desc.

Lemma StronglySorted_impl_in {A} (R R' : A → A → Prop) l :
  (∀ x y, x ∈ l → y ∈ l → R x y → R' x y) →
  StronglySorted R l → StronglySorted R' l.
Proof.
  intros H Hs. induction Hs as [|x l Hs IH Hx]; [constructor|].
  constructor.
  - apply IH. intros y z ? ?. apply H; by right.
  - rewrite Forall_forall in Hx |- *. intros y Hy.
    apply H; [left | by right | by apply Hx].
Qed.



Lemma rank_cons_ne y l x : y ≠ x → rank (y :: l) x = S (rank l x).
Proof. intros. simpl. by rewrite decide_False. Qed.


(** ** Degree ranking *)

Lemma degree_items_ids g :
  wf g → (λ x, post_id x.1) <$> degree_items g = Dict.keys (nodes g).
Proof.
  intros Hwf. rewrite <- (wf_adj_keys _ Hwf). unfold degree_items.
  assert (H : ∀ k, k ∈ Dict.keys (adj g) → k ∈ Dict.keys (nodes g))
    by by rewrite (wf_adj_keys _ Hwf).
  revert H. generalize (adj g). intros a.
  induction a as [|[k nbrs] a IH]; intros H; [done|].
  assert (Hk : k ∈ Dict.keys (nodes g)) by (apply H; left).
  apply DictFacts.get_is_Some in Hk as [p Hp].
  cbn [omap list_omap]. rewrite Hp. cbn [mbind option_bind].
  rewrite fmap_cons. cbn [fst].
  rewrite (wf_node_id _ Hwf _ _ Hp). unfold Dict.keys. rewrite fmap_cons.
  f_equal. apply IH. intros k' Hk'. apply H. by right.
Qed.

Lemma degree_items_elem g p d :
  wf g → (p, d) ∈ degree_items g →
  Dict.get (nodes g) (post_id p) = Some p ∧
  ∃ nbrs, Dict.get (adj g) (post_id p) = Some nbrs ∧ d = length nbrs.
Proof.
  intros Hwf ([k nbrs] & Hin & Hf)%list_elem_of_omap.
  destruct (Dict.get (nodes g) k) as [p'|] eqn:Hp; simplify_eq/=.
  rewrite (wf_node_id _ Hwf _ _ Hp). split; [done|].
  exists nbrs. split; [|done]. apply DictFacts.elem_of_get; [|done].
  rewrite (wf_adj_keys _ Hwf). apply Hwf.
Qed.




(** ** Breadth-first traversal *)

Lemma pending_mono a (v v' : gset string) : v ⊆ v' → (pending a v' ≤ pending a v)%nat.
Proof.
  intros Hsub. induction a as [|[k inner] a IH]; [done|].
  unfold pending in *. rewrite !fmap_cons. simpl.
  repeat case_decide; try lia; set_solver.
Qed.

Lemma pending_cons k inner a (visited : gset string) :
  pending ((k, inner) :: a) visited =
  ((if decide (k ∈ visited) then 0 else length inner) + pending a visited)%nat.
Proof. done. Qed.

Lemma pending_visit a (visited : gset string) current :
  current ∉ visited →
  (length (default [] (Dict.get a current)) + pending a ({[current]} ∪ visited)
   ≤ pending a visited)%nat.
Proof.
  intros Hc. induction a as [|[k inner] a IH]; [simpl; unfold pending; simpl; lia|].
  rewrite !pending_cons. simpl.
  destruct (decide (k = current)) as [->|Hne]; simpl.
  - rewrite decide_True by set_solver. rewrite decide_False by done.
    pose proof (pending_mono a visited ({[current]} ∪ visited)) as H.
    specialize (H ltac:(set_solver)). lia.
  - destruct (decide (k ∈ visited)).
    + rewrite decide_True by set_solver. lia.
    + rewrite decide_False by set_solver. lia.
Qed.

Lemma pending_budget a visited : (S (pending a visited) ≤ bfs_budget a)%nat.
Proof.
  unfold bfs_budget. apply le_n_S.
  induction a as [|[k inner] a IH]; [done|].
  rewrite pending_cons, !fmap_cons. simpl. case_decide; lia.
Qed.

Lemma bfs_is_Some fuel a visited queue component :
  (length queue + pending a visited ≤ fuel)%nat →
  is_Some (bfs fuel a visited queue component).
Proof.
  revert visited queue component.
  induction fuel as [|fuel IH]; intros visited queue component Hf.
  - destruct queue; simpl in *; [eauto | lia].
  - destruct queue as [|current rest]; simpl in *; [eauto|].
    case_decide as Hv.
    + apply IH. lia.
    + apply IH. rewrite length_app.
      pose proof (pending_visit a visited current Hv).
      match goal with
      | |- context [length (filter ?P ?l)] =>
          pose proof (length_filter P l) as Hl
      end.
      unfold Dict.keys in Hl at 2. rewrite length_fmap in Hl.
      unfold Dict.t in *. lia.
Qed.

Lemma bfs_spec fuel a visited queue component visited' component' :
  bfs fuel a visited queue component = Some (visited', component') →
  ∃ new,
    component' = component ++ new ∧ NoDup new ∧
    (∀ x, x ∈ new → x ∉ visited) ∧
    visited' = visited ∪ list_to_set new ∧
    (∀ x, x ∈ queue → x ∈ visited') ∧
    (∀ x, x ∈ new →
       x ∈ queue ∨ ∃ v, x ∈ Dict.keys (default [] (Dict.get a v))) ∧
    (∀ q rest, queue = q :: rest → q ∉ visited → ∃ t, new = q :: t).
Proof.
  revert visited queue component.
  induction fuel as [|fuel IH]; intros visited queue component.
  - destruct queue; simpl; [|done]. intros [= <- <-].
    exists []. rewrite app_nil_r. split_and!; try done; try set_solver.
    constructor.
  - destruct queue as [|current rest]; simpl.
    + intros [= <- <-].
      exists []. rewrite app_nil_r. split_and!; try done; try set_solver.
      constructor.
    + case_decide as Hv.
      * intros (new & -> & Hnd & Hdis & -> & Hq & Hsrc & _)%IH.
        exists new. split_and!; try done.
        -- intros x [->|Hx]%elem_of_cons; [set_solver | auto].
        -- intros x Hx. destruct (Hsrc x Hx) as [?|?]; [left; by right | by right].
        -- intros q rest' [= <- <-] ?. done.
      * intros (new & -> & Hnd & Hdis & -> & Hq & Hsrc & _)%IH.
        exists (current :: new). rewrite <- app_assoc. split_and!; try done.
        -- constructor; [|done]. intros Hin. apply Hdis in Hin. set_solver.
        -- intros x [->|Hx]%elem_of_cons; [done|].
           apply Hdis in Hx. set_solver.
        -- set_solver.
        -- intros x [->|Hx]%elem_of_cons; [set_solver|].
           apply Hq. apply elem_of_app. by left.
        -- intros x [->|Hx]%elem_of_cons; [left; left|].
           destruct (Hsrc x Hx) as [[?|Hf%list_elem_of_filter]%elem_of_app|?].
           ++ left. by right.
           ++ right. exists current. apply Hf.
           ++ by right.
        -- intros q rest' [= <- <-] _. eauto.
Qed.

(** ** Connected components *)

Lemma elem_of_concat {A} (x : A) (ls : list (list A)) :
  x ∈ concat ls ↔ ∃ l, l ∈ ls ∧ x ∈ l.
Proof.
  induction ls as [|l ls IH]; simpl.
  - split; [intros ?%elem_of_nil; done | intros (l & ?%elem_of_nil & _); done].
  - rewrite elem_of_app, IH. split.
    + intros [?|(l' & ? & ?)]; [exists l; split; [left | done]|].
      exists l'. split; [by right | done].
    + intros (l' & [->|?]%elem_of_cons & ?); [by left | right; eauto].
Qed.

Lemma concat_Permutation {A} (ls ls' : list (list A)) :
  ls ≡ₚ ls' → concat ls ≡ₚ concat ls'.
Proof.
  induction 1 as [|l ls ls' _ IH|l l' ls|ls1 ls2 ls3 _ IH1 _ IH2]; simpl.
  - done.
  - by rewrite IH.
  - rewrite !app_assoc. f_equiv. apply Permutation_app_comm.
  - by rewrite IH1.
Qed.

Lemma earliest_cons_notin y l c :
  y ∉ c → earliest (y :: l) c = S (earliest l c).
Proof.
  unfold earliest. induction c as [|x c IH]; [done|].
  rewrite not_elem_of_cons. intros [Hne Hc]. cbn [foldr].
  rewrite IH by done. rewrite rank_cons_ne by done. lia.
Qed.

Lemma earliest_head y l t : earliest (y :: l) (y :: t) = 0.
Proof. unfold earliest. simpl. by rewrite decide_True. Qed.

Section components_loop.
Context (a : Dict.t (Dict.t Edge)).

Lemma components_loop_spec ids visited comps :
  NoDup ids →
  (∀ v x, x ∈ Dict.keys (default [] (Dict.get a v)) → x ∈ visited ∨ x ∈ ids) →
  ∃ news,
    components_loop (bfs_budget a) a ids visited comps = Some (comps ++ news) ∧
    NoDup (concat news) ∧
    (∀ x, x ∈ concat news → x ∉ visited ∧ x ∈ ids) ∧
    (∀ x, x ∈ ids → x ∈ visited ∨ x ∈ concat news) ∧
    Forall (λ c, c ≠ []) news ∧
    StronglySorted (λ c1 c2, earliest ids c1 < earliest ids c2) news.
Proof.
  revert visited comps.
  induction ids as [|node_id rest IH]; intros visited comps Hnd Hcl.
  - exists []. simpl. rewrite app_nil_r.
    split_and!; [done | constructor | | | constructor | constructor].
    + intros x ?%elem_of_nil. done.
    + intros x ?%elem_of_nil. done.
  - apply NoDup_cons in Hnd as [Hnr Hnd]. cbn [components_loop].
    assert (Hshift : ∀ news : list (list string),
               (∀ x, x ∈ concat news → x ∈ rest) →
               StronglySorted (λ c1 c2, earliest rest c1 < earliest rest c2) news →
               StronglySorted (λ c1 c2, earliest (node_id :: rest) c1
                                        < earliest (node_id :: rest) c2) news).
    { intros news Hin. apply StronglySorted_impl_in.
      intros c1 c2 H1 H2 Hlt.
      rewrite !earliest_cons_notin; [lia | |];
        intros Hx; apply Hnr, Hin, elem_of_concat; eauto. }
    destruct (decide (node_id ∈ visited)) as [Hv|Hv].
    + destruct (IH visited comps Hnd) as (news & -> & Hn & Hin & Hcov & Hne & Hs).
      { intros v x Hx. destruct (Hcl v x Hx) as [?|[->|?]%elem_of_cons]; auto. }
      exists news. split_and!; try done.
      * intros x Hx. destruct (Hin x Hx). split; [done | by right].
      * intros x [->|Hx]%elem_of_cons; [by left | by apply Hcov].
      * apply Hshift; [|done]. intros x Hx. by apply Hin.
    + destruct (bfs_is_Some (bfs_budget a) a visited [node_id] [])
        as [[visited' component] Hb].
      { simpl. apply pending_budget. }
      rewrite Hb. cbn [mbind option_bind].
      apply bfs_spec in Hb as (new & -> & Hnew & Hdis & -> & Hq & Hsrc & Hhd).
      destruct (Hhd node_id [] eq_refl Hv) as [t ->]. cbn [app].
      destruct (IH (visited ∪ list_to_set (node_id :: t))
                  (comps ++ [node_id :: t]) Hnd)
        as (news & -> & Hn & Hin & Hcov & Hne & Hs).
      { intros v x Hx. destruct (Hcl v x Hx) as [?|[->|?]%elem_of_cons];
          [left | left | by right]; set_solver. }
      assert (Hcomp : ∀ x, x ∈ node_id :: t → x ∉ visited ∧ x ∈ node_id :: rest).
      { intros x Hx. split; [by apply Hdis|].
        destruct (Hsrc x Hx) as [->%list_elem_of_singleton|[v Hvx]]; [left|].
        destruct (Hcl v x Hvx) as [?|?]; [|done]. by apply Hdis in Hx. }
      exists ((node_id :: t) :: news). rewrite <- app_assoc.
      split_and!; try done.
      * change (NoDup ((node_id :: t) ++ concat news)).
        apply NoDup_app. split_and!; [done | | done].
        intros x Hx Hx'. apply Hin in Hx' as [Hx' _]. set_solver.
      * intros x [Hx|Hx]%elem_of_app; [by apply Hcomp|].
        apply Hin in Hx as [Hx ?]. split; [set_solver | by right].
      * intros x [->|Hx]%elem_of_cons.
        -- right. apply elem_of_app. left. left.
        -- destruct (Hcov x Hx) as [[?|?%elem_of_list_to_set]%elem_of_union|?].
           ++ by left.
           ++ right. apply elem_of_app. by left.
           ++ right. apply elem_of_app. by right.
      * by constructor.
      * constructor.
        -- apply Hshift; [|done]. intros x Hx. by apply Hin.
        -- rewrite Forall_forall. intros c Hc. rewrite earliest_head.
           rewrite earliest_cons_notin; [lia|].
           intros Hx. assert (Hx' : node_id ∈ concat news)
             by (apply elem_of_concat; eauto).
           apply Hin in Hx' as [Hx' _]. set_solver.
Qed.

End components_loop.

(** C4. [get_connected_components] returns (the traversal always ends), its
    components hold every current node id exactly once and nothing else, and
    they come largest first, components of equal size in the insertion order
    of their earliest-inserted members. *)
Theorem components_partition T g :
  reachable T g →
  ∃ comps, get_connected_components g = Some comps ∧ partition_in_order g comps.
Proof.
  intros [Hwf _]%reachable_wf. unfold get_connected_components.
  destruct (components_loop_spec (adj g) (Dict.keys (nodes g)) ∅ [])
    as (news & -> & Hnd & Hin & Hcov & Hne & Hs).
  { apply Hwf. }
  { intros v x [e He]%DictFacts.get_is_Some. right.
    assert (Hvx : edge_at g v x = Some e).
    { unfold edge_at, slot. by destruct (Dict.get (adj g) v). }
    by destruct (edge_at_nodes _ _ _ _ Hwf Hvx) as (_ & ? & _). }
  simpl. eexists. split; [reflexivity|].
  pose proof (sort_desc_Permutation length news) as Hp.
  assert (Hc : concat news ≡ₚ Dict.keys (nodes g)).
  { apply NoDup_Permutation; [done | apply Hwf|].
    intros x. split; [by intros [_ ?]%Hin|].
    intros Hx. destruct (Hcov x Hx) as [?|?]; [set_solver | done]. }
  split_and!.
  - by rewrite (concat_Permutation _ _ Hp).
  - by rewrite (concat_Permutation _ _ Hp).
  - intros pid. unfold has_post, Dict.mem.
    rewrite bool_decide_eq_true, DictFacts.get_is_Some, <- Hc.
    rewrite <- (concat_Permutation _ _ Hp). apply elem_of_concat.
  - by rewrite Hp.
  - by apply sort_desc_stable.
Qed.

Lemma components_partition_witness :
  ∃ comps, get_connected_components (scenario 2) = Some comps ∧
           partition_in_order (scenario 2) comps.
Proof. apply (components_partition 2 (scenario 2)), scenario_reachable. Defined.

(** ** Keyword frequencies *)

Lemma count_keywords_lookup (c : gmap string nat) kws kw :
  default 0 (count_keywords c kws !! kw)
  = default 0 (c !! kw) + length (filter (λ k, lower k = kw) kws).
Proof.
  unfold count_keywords. revert c.
  induction kws as [|k kws IH]; intros c; cbn [foldl]; [simpl; lia|].
  rewrite IH, filter_cons, lookup_insert.
  destruct (decide (lower k = kw)) as [->|Hne]; simpl; lia.
Qed.

Lemma count_keywords_positive (c : gmap string nat) kws :
  (∀ kw, c !! kw ≠ Some 0) → ∀ kw, count_keywords c kws !! kw ≠ Some 0.
Proof.
  unfold count_keywords. revert c.
  induction kws as [|k kws IH]; intros c Hc; cbn [foldl]; [done|].
  apply IH. intros kw. rewrite lookup_insert. case_decide; [|done].
  intros [= E]. lia.
Qed.

Section cluster_keywords.
Context (g : PostGraph).

Let step (c : gmap string nat) (pid : string) : gmap string nat :=
  match Dict.get (nodes g) pid with
  | Some post => count_keywords c (matched_keywords post)
  | None => c
  end.

Lemma cluster_fold_lookup c ids kw :
  default 0 (foldl step c ids !! kw)
  = default 0 (c !! kw) + keyword_occurrences g ids kw.
Proof.
  unfold keyword_occurrences. revert c.
  induction ids as [|pid ids IH]; intros c; cbn [foldl]; [simpl; lia|].
  rewrite IH, fmap_cons. cbn [sum_list sum_list_with]. unfold step.
  destruct (Dict.get (nodes g) pid); [rewrite count_keywords_lookup|]; simpl; lia.
Qed.

Lemma cluster_fold_positive c ids :
  (∀ kw, c !! kw ≠ Some 0) → ∀ kw, foldl step c ids !! kw ≠ Some 0.
Proof.
  revert c. induction ids as [|pid ids IH]; intros c Hc; cbn [foldl]; [done|].
  apply IH. unfold step. destruct (Dict.get (nodes g) pid); [|done].
  by apply count_keywords_positive.
Qed.

Lemma cluster_fold_skip c ids :
  foldl step c ids = foldl step c (filter (λ pid, has_post g pid = true) ids).
Proof.
  revert c. induction ids as [|pid ids IH]; intros c; [done|].
  rewrite filter_cons. cbn [foldl].
  destruct (decide (has_post g pid = true)) as [Hp|Hp]; cbn [foldl]; [apply IH|].
  rewrite <- IH. f_equal. unfold step.
  destruct (Dict.get (nodes g) pid) eqn:E; [|done].
  exfalso. apply Hp. unfold has_post, Dict.mem. apply bool_decide_eq_true_2. eauto.
Qed.

End cluster_keywords.

Lemma get_cluster_keywords_lookup g ids kw :
  get_cluster_keywords g ids !! kw
  = if decide (keyword_occurrences g ids kw = 0) then None
    else Some (keyword_occurrences g ids kw).
Proof.
  pose proof (cluster_fold_lookup g ∅ ids kw) as H.
  pose proof (cluster_fold_positive g ∅ ids (λ k, ltac:(by rewrite lookup_empty)) kw)
    as Hp.
  rewrite lookup_empty in H. simpl in H.
  unfold get_cluster_keywords.
  destruct (foldl _ ∅ ids !! kw) as [n|] eqn:E; simpl in H.
  - rewrite <- H. rewrite decide_False; [done|]. intros ->. by apply Hp.
  - rewrite <- H. by rewrite decide_True.
Qed.

(** With keyword lists whose entries stay distinct in lowercase and ids
    listed once, the entries counted are the documents that carry the
    keyword. *)
Lemma count_distinct {A B} `{EqDecision B} (f : A → B) l y :
  NoDup (f <$> l) →
  length (filter (λ k, f k = y) l) = if decide (y ∈ f <$> l) then 1 else 0.
Proof.
  induction l as [|x l IH]; [done|].
  rewrite fmap_cons, filter_cons. intros [Hx Hl]%NoDup_cons. specialize (IH Hl).
  destruct (decide (f x = y)) as [<-|Hne]; simpl.
  - rewrite decide_True by left. rewrite decide_False in IH by done. lia.
  - rewrite IH. destruct (decide (y ∈ f <$> l)) as [Hin|Hin].
    + rewrite decide_True; [done | by right].
    + rewrite decide_False; [done|]. by intros [?|?]%elem_of_cons.
Qed.

Lemma keyword_occurrences_carriers g ids kw :
  NoDup ids →
  (∀ pid post, pid ∈ ids → Dict.get (nodes g) pid = Some post →
               distinct_lowercase post) →
  keyword_occurrences g ids kw = size (carriers g ids kw).
Proof.
  intros Hnd Hd. unfold carriers.
  rewrite size_list_to_set by by apply NoDup_filter. clear Hnd.
  unfold keyword_occurrences. induction ids as [|pid ids IH]; [done|].
  rewrite fmap_cons, filter_cons. cbn [sum_list sum_list_with].
  rewrite IH by (intros ????; eapply Hd; [by right | done]).
  destruct (Dict.get (nodes g) pid) as [post|] eqn:E.
  - assert (Hc : carries g kw pid = bool_decide (kw ∈ post_keywords post))
      by (unfold carries; by rewrite E).
    rewrite (count_distinct lower) by (eapply Hd; [left | done]).
    unfold post_keywords in Hc.
    destruct (decide (kw ∈ lower <$> matched_keywords post)) as [Hin|Hin].
    + rewrite decide_True; [done|].
      rewrite Hc. apply bool_decide_eq_true_2. by apply elem_of_list_to_set.
    + rewrite decide_False; [done|]. rewrite Hc.
      intros H%bool_decide_eq_true_1. by apply elem_of_list_to_set in H.
  - rewrite decide_False; [done|]. unfold carries. by rewrite E.
Qed.

(** C10 (as the code has it). Ids without a node are skipped:
    [get_cluster_keywords] (a total function) gives the same map as on the
    present ids alone.  The map counts entries, not documents: it holds, for
    each lowercased keyword, the number of keyword-list entries with that
    lowercase form, over every listed occurrence of a present id, and no
    entry for a keyword none carries.  When the ids are listed once and no
    listed document has two entries of the same lowercase form, that number
    is the number of listed present documents that carry the keyword. *)
Theorem cluster_keywords_skip_absent g ids :
  get_cluster_keywords g ids
    = get_cluster_keywords g (filter (λ pid, has_post g pid = true) ids) ∧
  (∀ kw, get_cluster_keywords g ids !! kw
         = if decide (keyword_occurrences g ids kw = 0) then None
           else Some (keyword_occurrences g ids kw)) ∧
  (NoDup ids →
   (∀ pid post, pid ∈ ids → Dict.get (nodes g) pid = Some post →
                distinct_lowercase post) →
   ∀ kw, get_cluster_keywords g ids !! kw
         = if decide (carriers g ids kw = ∅) then None
           else Some (size (carriers g ids kw))).
Proof.
  split_and!.
  - apply cluster_fold_skip.
  - apply get_cluster_keywords_lookup.
  - intros Hnd Hd kw.
    rewrite get_cluster_keywords_lookup, (keyword_occurrences_carriers g ids kw Hnd Hd).
    destruct (decide (size (carriers g ids kw) = 0)) as [E|E].
    + apply size_empty_inv in E. rewrite decide_True; [done | by apply leibniz_equiv].
    + rewrite decide_False; [done|]. intros E'. by rewrite E', size_empty in E.
Qed.

Lemma cluster_keywords_skip_absent_witness :
  get_cluster_keywords (scenario 2) ["A"; "Z"; "B"] !! "drone"
  = if decide (carriers (scenario 2) ["A"; "Z"; "B"] "drone" = ∅) then None
    else Some (size (carriers (scenario 2) ["A"; "Z"; "B"] "drone")).
Proof.
  apply (proj2 (proj2 (cluster_keywords_skip_absent (scenario 2) ["A"; "Z"; "B"]))).
  - apply (bool_decide_eq_true_1 _). vm_compute. reflexivity.
  - intros pid post Hin Hp.
    apply elem_of_cons in Hin as [->|Hin]; [|apply elem_of_cons in Hin as [->|Hin]];
      [| |apply list_elem_of_singleton in Hin as ->];
      vm_compute in Hp; simplify_eq;
      apply (bool_decide_eq_true_1 _); vm_compute; reflexivity.
Defined.

(** C10, the reading that fails: the count is not one per document.  A
    document with the entries ["Drone"] and ["drone"] counts twice for
    ["drone"], and an id listed twice counts its document twice. *)
Lemma cluster_keywords_count_entries :
  let g := insert_all 1 [kw_post "A" ["Drone"; "drone"; "mil"]] in
  get_cluster_keywords g ["A"] !! "drone" = Some 2 ∧
  size (carriers g ["A"] "drone") = 1 ∧
  get_cluster_keywords g ["A"; "A"] !! "mil" = Some 2 ∧
  size (carriers g ["A"; "A"] "mil") = 1.
Proof. by vm_compute. Qed.

(** ** Which keyword strings the graph shows *)

Lemma elem_of_post_keywords p kw : kw ∈ post_keywords p ↔ carried_lowercase p kw.
Proof.
  unfold post_keywords, carried_lowercase.
  rewrite elem_of_list_to_set, list_elem_of_fmap. naive_solver.
Qed.

Lemma sum_list_fmap_pos {A} (f : A → nat) l :
  sum_list (f <$> l) ≠ 0 ↔ ∃ x, x ∈ l ∧ f x ≠ 0.
Proof.
  induction l as [|y l IH]; [rewrite fmap_nil | rewrite fmap_cons]; simpl.
  - split; [done | intros (x & ?%elem_of_nil & _); done].
  - split.
    + intros H. destruct (decide (f y = 0)) as [E|E].
      * destruct (proj1 IH) as (x & ? & ?); [lia|]. exists x. split; [by right | done].
      * exists y. split; [left | done].
    + intros (x & [->|Hx]%elem_of_cons & Hf); [lia|].
      assert (sum_list (f <$> l) ≠ 0) by (apply IH; eauto). lia.
Qed.

Lemma length_filter_pos {A} (P : A → Prop) `{!∀ x, Decision (P x)} l :
  length (filter P l) ≠ 0 ↔ ∃ x, x ∈ l ∧ P x.
Proof.
  split.
  - destruct (filter P l) as [|x l'] eqn:E; [done|]. intros _.
    assert (Hx : x ∈ filter P l) by (rewrite E; left).
    apply list_elem_of_filter in Hx as [? ?]. eauto.
  - intros (x & Hx & HP).
    assert (Hin : x ∈ filter P l) by by apply list_elem_of_filter.
    destruct (filter P l); [by apply elem_of_nil in Hin | done].
Qed.

Lemma keyword_occurrences_pos g ids kw :
  keyword_occurrences g ids kw ≠ 0 ↔
  ∃ pid p, pid ∈ ids ∧ Dict.get (nodes g) pid = Some p ∧ carried_lowercase p kw.
Proof.
  unfold keyword_occurrences, carried_lowercase.
  rewrite sum_list_fmap_pos. split.
  - intros (pid & Hpid & Hn).
    destruct (Dict.get (nodes g) pid) as [p|] eqn:E; [|done].
    apply length_filter_pos in Hn as (k & ? & ?). eauto 10.
  - intros (pid & p & Hpid & Hp & k & Hk & ->).
    exists pid. split; [done|]. rewrite Hp. apply length_filter_pos. eauto.
Qed.

(** C8 (as the code has it). The only normalization the graph applies is
    [lower]: the strings in shared-keyword sets and the keys of
    [get_cluster_keywords] are exactly the lowercase forms of the keywords
    carried by the documents concerned; for a document whose keywords are
    already lowercase these are the carried strings themselves. *)
Theorem keywords_lowercased_only T g : reachable T g → shows_lowercased g.
Proof.
  intros [Hwf _]%reachable_wf. split_and!.
  - intros a b kw. unfold get_shared_keywords. split.
    + destruct (edge_at g a b) as [e|] eqn:E; [|set_solver].
      apply (wf_edges _ Hwf) in E as (pa & pb & Hpa & Hpb & _ & _ & _ & ->).
      simpl. unfold shared_of.
      rewrite elem_of_intersection, !elem_of_post_keywords. intros [? ?].
      exists pa, pb. split_and!; eauto.
    + intros (pa & pb & [e E] & Hpa & Hpb & Ha & Hb). rewrite E.
      apply (wf_edges _ Hwf) in E as (pa' & pb' & ? & ? & _ & _ & _ & ->).
      simplify_eq. simpl. unfold shared_of.
      by rewrite elem_of_intersection, !elem_of_post_keywords.
  - intros ids kw. rewrite <- keyword_occurrences_pos.
    rewrite get_cluster_keywords_lookup.
    case_decide as E; split; done.
  - intros p kw Hl. unfold carried_lowercase. split.
    + intros (k & Hk & ->). by rewrite Hl.
    + intros Hk. exists kw. by rewrite Hl.
Qed.

Lemma keywords_lowercased_only_witness : shows_lowercased (scenario 2).
Proof. apply (keywords_lowercased_only 2 (scenario 2)), scenario_reachable. Defined.

(** C8, the reading that fails: two documents carry ["Drone"]; the edge
    between them and the frequency map show ["drone"], a string that neither
    document carries. *)
Lemma keywords_are_case_folded :
  let d1 := kw_post "A" ["Drone"] in
  let d2 := kw_post "B" ["Drone"] in
  let g := insert_all 1 [d1; d2] in
  ¬ (∀ kw, kw ∈ get_shared_keywords g "A" "B" →
           kw ∈ matched_keywords d1 ∨ kw ∈ matched_keywords d2) ∧
  ¬ (∀ kw, is_Some (get_cluster_keywords g ["A"; "B"] !! kw) →
           kw ∈ matched_keywords d1 ∨ kw ∈ matched_keywords d2).
Proof.
  intros d1 d2 g.
  assert (Hn : ¬ ("drone" ∈ matched_keywords d1 ∨ "drone" ∈ matched_keywords d2)).
  { simpl. rewrite !list_elem_of_singleton. intros [?|?]; discriminate. }
  split; intros H; apply Hn, H.
  - assert (E : get_shared_keywords g "A" "B" = {["drone"]}) by by vm_compute.
    rewrite E. set_solver.
  - assert (E : get_cluster_keywords g ["A"; "B"] !! "drone" = Some 2)
      by by vm_compute.
    rewrite E. eauto.
Qed.

(** * Further properties of the graph operations *)

(** ** Node table: insertion, lookup, removal *)

Lemma nodes_add_post g p :
  nodes (add_post g p).1 =
  if Dict.mem (nodes g) (post_id p) then nodes g
  else Dict.set (nodes g) (post_id p) p.
Proof.
  unfold add_post. destruct (Dict.mem _ _); [done|].
  by destruct (link_candidates _ _ _ _ _).
Qed.

Lemma get_nodes_add_post g p i :
  Dict.get (nodes (add_post g p).1) i =
  if decide (i = post_id p) then Some (default p (Dict.get (nodes g) i))
  else Dict.get (nodes g) i.
Proof.
  rewrite nodes_add_post. unfold Dict.mem.
  destruct (decide (i = post_id p)) as [->|Hne].
  - destruct (Dict.get (nodes g) (post_id p)) as [q|] eqn:E.
    + rewrite bool_decide_eq_true_2 by eauto. by rewrite E.
    + rewrite bool_decide_eq_false_2 by (by intros [? ?]).
      by rewrite DictFacts.get_set_eq.
  - case_bool_decide; [done|]. by rewrite DictFacts.get_set_ne.
Qed.

(** X1. Looking up the id just inserted gives the document stored under it:
    the one already there if the id was present (the first insertion wins),
    else the new one; every other id reads as before. *)
Theorem get_post_add_post g p i :
  get_post (add_post g p).1 i =
  (if decide (i = post_id p) then Some (default p (get_post g i))
   else get_post g i) ∧
  has_post (add_post g p).1 (post_id p) = true.
Proof.
  unfold get_post, has_post, Dict.mem. split; [apply get_nodes_add_post|].
  apply bool_decide_eq_true_2. rewrite get_nodes_add_post.
  rewrite decide_True by done. eauto.
Qed.

(** X2. A successful [remove_post] deletes the node and nothing else from the
    node table: the removed id is no longer there, the other documents keep
    their entries and their insertion order. *)
Theorem remove_post_nodes T g pid g' :
  reachable T g → remove_post g pid = Ok g' →
  has_post g' pid = false ∧
  (∀ i, i ≠ pid → get_post g' i = get_post g i) ∧
  Dict.keys (nodes g') = filter (λ i, i ≠ pid) (Dict.keys (nodes g)).
Proof.
  intros [Hwf _]%reachable_wf Hr.
  assert (Hn : nodes g' = Dict.remove (nodes g) pid).
  { destruct (Dict.get (nodes g) pid) as [post|] eqn:E.
    - destruct (remove_post_present g pid post Hwf E) as (a2 & E2 & _).
      rewrite E2 in Hr. by injection Hr as <-.
    - rewrite remove_post_absent in Hr by done. injection Hr as <-.
      symmetry. apply DictFacts.remove_absent. by apply DictFacts.get_None. }
  unfold has_post, get_post, Dict.mem. rewrite Hn. split_and!.
  - apply bool_decide_eq_false_2. rewrite DictFacts.get_remove.
    rewrite decide_True by done. by intros [? ?].
  - intros i Hi. rewrite DictFacts.get_remove. by rewrite decide_False.
  - apply DictFacts.keys_remove.
Qed.

Lemma remove_post_nodes_witness :
  ∃ g', remove_post (scenario 2) "A" = Ok g' ∧ has_post g' "A" = false.
Proof.
  destruct (remove_post (scenario 2) "A") as [g'|e] eqn:E;
    [|by vm_compute in E].
  exists g'. split; [done|].
  apply (remove_post_nodes 2 (scenario 2) "A" g' (scenario_reachable 2) E).
Defined.

(** ** What insertion and removal do to the edges *)

(** X3. A successful [remove_post] removes exactly the edges of the removed
    document: no slot names it any more, every other slot is as before. *)
Theorem remove_post_edges T g pid g' :
  reachable T g → remove_post g pid = Ok g' → has_post g pid = true →
  ∀ x y, edge_at g' x y =
         if decide (x = pid ∨ y = pid) then None else edge_at g x y.
Proof.
  intros [Hwf _]%reachable_wf Hr Hp.
  apply bool_decide_eq_true_1 in Hp as [post E].
  destruct (remove_post_present g pid post Hwf E) as (a2 & E2 & _ & _ & Hs).
  rewrite E2 in Hr. injection Hr as <-. exact Hs.
Qed.

Lemma remove_post_edges_witness :
  ∃ g', remove_post (scenario 2) "A" = Ok g' ∧
        edge_at g' "A" "B" = None ∧ edge_at g' "B" "C" = edge_at (scenario 2) "B" "C".
Proof.
  destruct (remove_post (scenario 2) "A") as [g'|e] eqn:E;
    [|by vm_compute in E].
  exists g'. split; [done|].
  pose proof (remove_post_edges 2 (scenario 2) "A" g' (scenario_reachable 2) E
                eq_refl) as H.
  split; [apply (H "A" "B") | apply (H "B" "C")].
Defined.

(** X4. [add_post] never touches an edge between two other documents. *)
Theorem add_post_keeps_edges T g p x y :
  reachable T g → x ≠ post_id p → y ≠ post_id p →
  edge_at (add_post g p).1 x y = edge_at g x y.
Proof.
  intros [Hwf _]%reachable_wf Hx Hy.
  destruct (Dict.get (nodes g) (post_id p)) as [q|] eqn:E.
  - rewrite add_post_present by eauto. done.
  - rewrite add_post_fresh_eq by done. unfold edge_at. simpl.
    rewrite slot_link_candidates.
    + rewrite !decide_False by done. by apply slot_adj1.
    + apply find_candidates_NoDup.
    + by apply candidate_not_self.
Qed.

Lemma add_post_keeps_edges_witness :
  edge_at (add_post (scenario 2) (kw_post "D" ["mil"; "night"])).1 "A" "B"
  = edge_at (scenario 2) "A" "B".
Proof.
  apply (add_post_keeps_edges 2 (scenario 2) (kw_post "D" ["mil"; "night"]) "A" "B").
  - apply scenario_reachable.
  - discriminate.
  - discriminate.
Defined.

(** X5. A document without keywords is isolated: no edge names it and
    [get_neighbors] of it is empty. *)
Theorem no_keywords_isolated T g a p :
  reachable T g → get_post g a = Some p → matched_keywords p = [] →
  (∀ b, edge_at g a b = None ∧ edge_at g b a = None) ∧ get_neighbors g a = [].
Proof.
  intros [Hwf _]%reachable_wf Hp Hk.
  assert (Hs : ∀ q, shared_of p q = ∅ ∧ shared_of q p = ∅).
  { intros q. unfold shared_of, post_keywords. rewrite Hk. set_solver. }
  assert (He : ∀ b, edge_at g a b = None ∧ edge_at g b a = None).
  { intros b. unfold get_post in Hp.
    split; apply eq_None_not_Some; intros [e He];
      apply (wf_edges _ Hwf) in He as (pa & pb & Hpa & Hpb & _ & Hne & _);
      apply Hne.
    - assert (pa = p) as -> by congruence. apply Hs.
    - assert (pb = p) as -> by congruence. apply Hs. }
  split; [done|]. unfold get_neighbors.
  destruct (Dict.get (adj g) a) as [[|[b e] inner]|] eqn:Ea; [done| |done].
  destruct (He b) as [Hab _]. unfold edge_at, slot in Hab. rewrite Ea in Hab.
  simpl in Hab. by rewrite decide_True in Hab.
Qed.

Lemma no_keywords_isolated_witness :
  get_neighbors (add_post (scenario 1) (kw_post "E" [])).1 "E" = [].
Proof.
  apply (no_keywords_isolated 1 (add_post (scenario 1) (kw_post "E" [])).1
           "E" (kw_post "E" [])).
  - apply reach_add_post, scenario_reachable.
  - reflexivity.
  - reflexivity.
Defined.

(** ** Invariants of the tables *)

(** X6. The inverted index mirrors the node table: an id is in the
    postings of a keyword iff a current document with that id carries the
    keyword (in lowercase), and no postings set is left empty. *)
Theorem index_consistent T g :
  reachable T g →
  (∀ kw i, i ∈ default ∅ (keyword_index g !! kw) ↔
           ∃ p, get_post g i = Some p ∧ carried_lowercase p kw) ∧
  (∀ kw s, keyword_index g !! kw = Some s → s ≠ ∅).
Proof.
  intros [Hwf _]%reachable_wf. split.
  - intros kw i. rewrite (wf_index _ Hwf). unfold get_post.
    by setoid_rewrite elem_of_post_keywords.
  - intros kw s Hs ->. by apply (wf_index_nonempty _ Hwf kw).
Qed.

Lemma index_consistent_witness :
  "A" ∈ default ∅ (keyword_index (scenario 2) !! "mil") ↔
  ∃ p, get_post (scenario 2) "A" = Some p ∧ carried_lowercase p "mil".
Proof. apply (index_consistent 2 (scenario 2)), scenario_reachable. Defined.

(** X7. Node table and adjacency stay aligned: the ids are unique, the
    adjacency has an entry for exactly the node ids, in the same order, every
    document is stored under its own id, and the threshold never changes. *)
Theorem tables_aligned T g :
  reachable T g →
  NoDup (Dict.keys (nodes g)) ∧
  Dict.keys (adj g) = Dict.keys (nodes g) ∧
  (∀ i p, get_post g i = Some p → post_id p = i) ∧
  min_shared_keywords g = T.
Proof.
  intros [Hwf HT]%reachable_wf. split_and!; [apply Hwf.. | done].
Qed.

Lemma tables_aligned_witness : Dict.keys (adj (scenario 2)) = Dict.keys (nodes (scenario 2)).
Proof. apply (tables_aligned 2 (scenario 2)), scenario_reachable. Defined.

(** ** Counting nodes and edges *)

Lemma length_set_fresh {V} (d : Dict.t V) k v :
  k ∉ Dict.keys d → length (Dict.set d k v) = S (length d).
Proof.
  intros H. rewrite DictFacts.set_fresh by done. rewrite length_app. simpl. lia.
Qed.

Lemma length_set_present {V} (d : Dict.t V) k v :
  k ∈ Dict.keys d → length (Dict.set d k v) = length d.
Proof.
  intros H. rewrite <- (length_fmap fst (Dict.set d k v)), <- (length_fmap fst d).
  fold (Dict.keys (Dict.set d k v)) (Dict.keys d).
  by rewrite DictFacts.keys_set_present.
Qed.

Lemma length_remove_present {V} (d : Dict.t V) k :
  NoDup (Dict.keys d) → k ∈ Dict.keys d →
  S (length (Dict.remove d k)) = length d.
Proof.
  induction d as [|[k0 v0] d IH]; simpl.
  - intros _ ?%elem_of_nil. done.
  - change (Dict.keys ((k0, v0) :: d)) with (k0 :: Dict.keys d).
    intros [Hk Hnd]%NoDup_cons Hin.
    destruct (decide (k0 = k)) as [->|Hne].
    + by rewrite DictFacts.remove_absent.
    + simpl. f_equal. apply IH; [done|].
      apply elem_of_cons in Hin as [?|?]; [congruence | done].
Qed.

Lemma degree_sum_cons k inner a :
  degree_sum ((k, inner) :: a) = (length inner + degree_sum a)%nat.
Proof. done. Qed.

Lemma degree_sum_set a k old new :
  Dict.get a k = Some old →
  (degree_sum (Dict.set a k new) + length old = degree_sum a + length new)%nat.
Proof.
  induction a as [|[k0 v0] a IH]; simpl; [done|].
  destruct (decide (k0 = k)) as [->|Hne].
  - intros [= ->]. rewrite !degree_sum_cons. lia.
  - intros H. rewrite !degree_sum_cons. specialize (IH H). lia.
Qed.

Lemma degree_sum_set_fresh a k new :
  Dict.get a k = None →
  degree_sum (Dict.set a k new) = (degree_sum a + length new)%nat.
Proof.
  intros H%DictFacts.get_None. rewrite DictFacts.set_fresh by done.
  unfold degree_sum. rewrite !fmap_app, sum_list_with_app. simpl. lia.
Qed.

Lemma degree_sum_remove a k old :
  NoDup (Dict.keys a) → Dict.get a k = Some old →
  (degree_sum (Dict.remove a k) + length old = degree_sum a)%nat.
Proof.
  induction a as [|[k0 v0] a IH]; simpl; [done|].
  change (Dict.keys ((k0, v0) :: a)) with (k0 :: Dict.keys a).
  intros [Hk Hnd]%NoDup_cons.
  destruct (decide (k0 = k)) as [->|Hne].
  - intros [= ->]. rewrite DictFacts.remove_absent by done.
    rewrite degree_sum_cons. lia.
  - intros H. rewrite !degree_sum_cons. specialize (IH Hnd H). lia.
Qed.

Lemma get_add_edge a pid o s x :
  pid ≠ o →
  Dict.get (add_edge a pid o s) x =
  if decide (o = x)
  then Some (Dict.set (default [] (Dict.get a o)) pid (mkEdge pid o s))
  else if decide (pid = x)
       then Some (Dict.set (default [] (Dict.get a pid)) o (mkEdge pid o s))
       else Dict.get a x.
Proof.
  intros Hne. unfold add_edge. rewrite !DictFacts.get_set.
  destruct (decide (o = x)) as [->|Hox]; [|done].
  by rewrite decide_False.
Qed.

Lemma degree_sum_add_edge a pid o s ip io :
  pid ≠ o → Dict.get a pid = Some ip → Dict.get a o = Some io →
  o ∉ Dict.keys ip → pid ∉ Dict.keys io →
  degree_sum (add_edge a pid o s) = (degree_sum a + 2)%nat.
Proof.
  intros Hne Hp Ho Hip Hio. unfold add_edge.
  rewrite Hp. simpl. rewrite DictFacts.get_set_ne, Ho by done. simpl.
  pose proof (degree_sum_set a pid ip (Dict.set ip o (mkEdge pid o s)) Hp) as H1.
  pose proof (degree_sum_set (Dict.set a pid (Dict.set ip o (mkEdge pid o s))) o io
                (Dict.set io pid (mkEdge pid o s))) as H2.
  rewrite DictFacts.get_set_ne in H2 by done. specialize (H2 Ho).
  rewrite !length_set_fresh in H1, H2 by done. lia.
Qed.

Lemma link_candidates_counts T pid cc a n :
  NoDup (Dict.keys cc) → pid ∉ Dict.keys cc → pid ∈ Dict.keys a →
  (∀ o, o ∈ Dict.keys cc →
        o ∈ Dict.keys a ∧ o ∉ Dict.keys (default [] (Dict.get a pid)) ∧
        pid ∉ Dict.keys (default [] (Dict.get a o))) →
  (degree_sum (link_candidates T pid cc a n).1 + 2 * n
   = degree_sum a + 2 * (link_candidates T pid cc a n).2)%nat ∧
  (length (default [] (Dict.get (link_candidates T pid cc a n).1 pid)) + n
   = length (default [] (Dict.get a pid)) + (link_candidates T pid cc a n).2)%nat.
Proof.
  revert a n. induction cc as [|[o s] cc IH]; intros a n Hnd Hpid Hpa Hcc.
  - simpl. unfold Dict.t in *. lia.
  - change (Dict.keys ((o, s) :: cc)) with (o :: Dict.keys cc) in *.
    apply NoDup_cons in Hnd as [Ho Hnd].
    apply not_elem_of_cons in Hpid as [Hpo Hpid].
    cbn [link_candidates].
    assert (Hrest : ∀ o', o' ∈ Dict.keys cc →
              o' ∈ Dict.keys a ∧ o' ∉ Dict.keys (default [] (Dict.get a pid)) ∧
              pid ∉ Dict.keys (default [] (Dict.get a o'))).
    { intros o' Ho'. apply Hcc. by right. }
    destruct (T <=? Z.of_nat (size s))%Z; [|by apply IH].
    destruct (Hcc o ltac:(left)) as (Hoa & Hop & Hpo').
    apply DictFacts.get_is_Some in Hpa as [ip Hip].
    apply DictFacts.get_is_Some in Hoa as [io Hio].
    unfold Dict.t in *.
    rewrite Hip in Hop. rewrite Hio in Hpo'. simpl in Hop, Hpo'.
    pose proof (degree_sum_add_edge a pid o s ip io Hpo Hip Hio Hop Hpo') as Hsum.
    assert (Hgp : Dict.get (add_edge a pid o s) pid
                  = Some (Dict.set ip o (mkEdge pid o s))).
    { rewrite get_add_edge by done. rewrite decide_False by auto.
      rewrite decide_True by done. unfold Dict.t in *. by rewrite Hip. }
    destruct (IH (add_edge a pid o s) (n + 1)) as [H1 H2]; try done.
    + apply DictFacts.get_is_Some. eauto.
    + intros o' Ho'. destruct (Hrest o' Ho') as (H1 & H2 & H3).
      assert (o ≠ o') by (intros ->; done).
      assert (pid ≠ o') by (intros ->; done).
      split_and!.
      * apply DictFacts.get_is_Some. rewrite get_add_edge by done.
        rewrite !decide_False by done. by apply DictFacts.get_is_Some.
      * unfold Dict.t in *. rewrite Hgp. simpl.
        rewrite DictFacts.elem_of_keys_set.
        rewrite Hip in H2. simpl in H2. naive_solver.
      * rewrite get_add_edge by done. by rewrite !decide_False by done.
    + unfold Dict.t in *. rewrite Hgp in H2. rewrite Hip. simpl in *.
      rewrite length_set_fresh in H2 by done. lia.
Qed.

Lemma add_post_counts g p :
  wf g →
  (degree_sum (adj (add_post g p).1)
   = degree_sum (adj g) + 2 * (add_post g p).2)%nat ∧
  (has_post g (post_id p) = false →
   degree (add_post g p).1 (post_id p) = (add_post g p).2).
Proof.
  intros Hwf. destruct (Dict.get (nodes g) (post_id p)) as [q|] eqn:E.
  - rewrite add_post_present by eauto. simpl. split; [lia|].
    unfold has_post, Dict.mem. rewrite bool_decide_eq_true_2 by eauto. done.
  - rewrite add_post_fresh_eq by done. unfold degree. simpl.
    assert (Ha : Dict.get (adj g) (post_id p) = None).
    { apply DictFacts.get_None. rewrite (wf_adj_keys _ Hwf).
      by apply DictFacts.get_None. }
    destruct (link_candidates_counts (min_shared_keywords g) (post_id p)
                (find_candidates (keyword_index g) (post_keywords p))
                (Dict.set (adj g) (post_id p) []) 0) as [H1 H2].
    + apply find_candidates_NoDup.
    + by apply candidate_not_self.
    + apply DictFacts.elem_of_keys_set. by left.
    + intros o Ho. pose proof (candidate_is_node g p Hwf o Ho) as Hon.
      assert (Hne : post_id p ≠ o).
      { intros <-. by apply DictFacts.get_None in E. }
      rewrite DictFacts.get_set_eq, DictFacts.get_set_ne by done. simpl.
      split_and!.
      * apply DictFacts.elem_of_keys_set. right.
        pose proof (wf_adj_keys _ Hwf) as Hk. unfold Dict.t in *. by rewrite Hk.
      * apply not_elem_of_nil.
      * intros [e Hs]%elem_of_nbrs.
        destruct (edge_at_nodes _ _ _ _ Hwf Hs) as (_ & Hin & _).
        by apply DictFacts.get_None in E.
    + rewrite degree_sum_set_fresh in H1 by done.
      rewrite DictFacts.get_set_eq in H2. simpl in *. split; [lia|].
      intros _. lia.
Qed.

Lemma add_post_each_counts g posts :
  wf g →
  (degree_sum (adj (add_post_each g posts).1)
   = degree_sum (adj g) + 2 * (add_post_each g posts).2)%nat.
Proof.
  revert g. induction posts as [|p posts IH]; intros g Hwf; simpl; [lia|].
  pose proof (add_post_counts g p Hwf) as [H1 _].
  pose proof (add_post_wf g p Hwf) as Hwf1.
  destruct (add_post g p) as [g1 n]. specialize (IH g1 Hwf1).
  destruct (add_post_each g1 posts) as [g2 m]. simpl in *. lia.
Qed.

Lemma get_unlink_neighbors a pid nbrs a' x :
  unlink_neighbors a pid nbrs = Ok a' → x ∉ nbrs → Dict.get a' x = Dict.get a x.
Proof.
  revert a. induction nbrs as [|nb rest IH]; intros a; simpl.
  - by intros [= <-].
  - unfold subscript. destruct (Dict.get a nb) as [inner|]; simpl; [|done].
    intros H [Hne Hx]%not_elem_of_cons. rewrite (IH _ H Hx).
    by rewrite DictFacts.get_set_ne.
Qed.

Lemma degree_sum_unlink_neighbors a pid nbrs a' :
  NoDup nbrs →
  (∀ nb, nb ∈ nbrs → ∃ inner, Dict.get a nb = Some inner ∧
                              pid ∈ Dict.keys inner ∧ NoDup (Dict.keys inner)) →
  unlink_neighbors a pid nbrs = Ok a' →
  (degree_sum a' + length nbrs = degree_sum a)%nat.
Proof.
  revert a. induction nbrs as [|nb rest IH]; intros a Hnd Hin; simpl.
  - intros [= <-]. lia.
  - apply NoDup_cons in Hnd as [Hnb Hnd].
    destruct (Hin nb ltac:(left)) as (inner & Hi & Hp & Hni).
    unfold subscript. rewrite Hi. simpl. intros H.
    apply IH in H; [|done|].
    + pose proof (degree_sum_set a nb inner (Dict.remove inner pid) Hi).
      pose proof (length_remove_present inner pid Hni Hp). lia.
    + intros nb' Hnb'. destruct (Hin nb' ltac:(by right)) as (i' & ? & ? & ?).
      exists i'. rewrite DictFacts.get_set_ne by (intros ->; done). done.
Qed.

Lemma remove_post_counts g pid g' :
  wf g → remove_post g pid = Ok g' →
  (degree_sum (adj g') + 2 * degree g pid = degree_sum (adj g))%nat.
Proof.
  intros Hwf Hr. unfold degree.
  destruct (Dict.get (nodes g) pid) as [post|] eqn:E.
  - assert (Hpa : pid ∈ Dict.keys (adj g)).
    { rewrite (wf_adj_keys _ Hwf). apply DictFacts.get_is_Some. eauto. }
    apply DictFacts.get_is_Some in Hpa as [ip Hip].
    revert Hr. unfold remove_post. rewrite E, Hip. simpl.
    destruct (unlink_neighbors (adj g) pid (Dict.keys ip)) as [a1|] eqn:Hu;
      simpl; [|done].
    unfold del. destruct (Dict.mem a1 pid); simpl; [|done]. intros [= <-]. simpl.
    assert (Hself : pid ∉ Dict.keys ip).
    { intros [e He]%DictFacts.get_is_Some.
      assert (Hs : edge_at g pid pid = Some e)
        by (unfold edge_at, slot; by rewrite Hip).
      by destruct (edge_at_nodes _ _ _ _ Hwf Hs) as (_ & _ & ?). }
    pose proof (get_unlink_neighbors _ _ _ _ pid Hu Hself) as Hg1.
    rewrite Hip in Hg1.
    destruct (unlink_neighbors_ok (adj g) pid (Dict.keys ip))
      as (a1' & Hu' & Hk1 & _).
    { intros x [e He]%DictFacts.get_is_Some.
      assert (Hs : edge_at g pid x = Some e)
        by (unfold edge_at, slot; by rewrite Hip).
      rewrite (wf_adj_keys _ Hwf). by eapply edge_at_nodes. }
    rewrite Hu in Hu'. injection Hu' as <-.
    pose proof (degree_sum_remove a1 pid ip) as Hd.
    rewrite Hk1, (wf_adj_keys _ Hwf) in Hd. specialize (Hd (wf_nodes_NoDup _ Hwf) Hg1).
    pose proof (degree_sum_unlink_neighbors (adj g) pid (Dict.keys ip) a1) as Hun.
    assert (Hun' : (degree_sum a1 + length ip = degree_sum (adj g))%nat).
    { rewrite <- (length_fmap fst ip). apply Hun; [by apply (wf_inner _ Hwf pid) | | done].
      intros nb [e He]%DictFacts.get_is_Some.
      assert (Hs : edge_at g pid nb = Some e)
        by (unfold edge_at, slot; by rewrite Hip).
      apply (edge_at_sym _ _ _ _ Hwf) in Hs.
      apply slot_Some_inner in Hs as (inner & Hi & Hie).
      exists inner. split_and!; [done | | by eapply wf_inner].
      apply DictFacts.get_is_Some. eauto. }
    simpl. lia.
  - rewrite remove_post_absent in Hr by done. injection Hr as <-.
    assert (Dict.get (adj g) pid = None) as ->; [|simpl; lia].
    apply DictFacts.get_None. rewrite (wf_adj_keys _ Hwf).
    by apply DictFacts.get_None.
Qed.

Lemma reachable_degree_sum_even T g :
  reachable T g → ∃ k, degree_sum (adj g) = (2 * k)%nat.
Proof.
  induction 1 as [|g post Hr [k IH]|g posts Hr [k IH]|g pid g' Hr [k IH] Hrem].
  - by exists 0.
  - destruct (reachable_wf _ _ Hr) as [Hwf _].
    destruct (add_post_counts g post Hwf) as [H _].
    exists (k + (add_post g post).2). lia.
  - destruct (reachable_wf _ _ Hr) as [Hwf _]. unfold add_posts.
    rewrite (proj1 (add_posts_loop_each g posts 0 0)).
    pose proof (add_post_each_counts g posts Hwf) as H.
    exists (k + (add_post_each g posts).2). lia.
  - destruct (reachable_wf _ _ Hr) as [Hwf _].
    pose proof (remove_post_counts g pid g' Hwf Hrem) as H.
    exists (k - degree g pid). lia.
Qed.

Lemma edge_count_half g k : degree_sum (adj g) = (2 * k)%nat → edge_count g = k.
Proof.
  intros H. unfold edge_count. fold (degree_sum (adj g)). rewrite H.
  rewrite Nat.mul_comm. by apply Nat.div_mul.
Qed.

(** X8. The degrees always add up to an even number, so the integer division
    in [edge_count] loses nothing: twice [edge_count] is the sum of the
    adjacency sizes. *)
Theorem edge_count_exact T g :
  reachable T g → (2 * edge_count g = degree_sum (adj g))%nat.
Proof.
  intros [k Hk]%reachable_degree_sum_even.
  rewrite (edge_count_half g k Hk). lia.
Qed.

Lemma edge_count_exact_witness :
  (2 * edge_count (scenario 1) = degree_sum (adj (scenario 1)))%nat.
Proof. apply (edge_count_exact 1 (scenario 1)), scenario_reachable. Defined.

(** X9. The value [add_post] returns is the growth of [edge_count], and for a
    new id it is the degree of the inserted document; [node_count] grows by
    one for a new id and not at all for a known one. *)
Theorem add_post_counts_growth T g p :
  reachable T g →
  edge_count (add_post g p).1 = (edge_count g + (add_post g p).2)%nat ∧
  (has_post g (post_id p) = false →
   degree (add_post g p).1 (post_id p) = (add_post g p).2 ∧
   node_count (add_post g p).1 = S (node_count g)) ∧
  (has_post g (post_id p) = true →
   node_count (add_post g p).1 = node_count g).
Proof.
  intros Hr. destruct (reachable_wf _ _ Hr) as [Hwf _].
  destruct (reachable_degree_sum_even _ _ Hr) as [k Hk].
  destruct (add_post_counts g p Hwf) as [H1 H2]. split_and!.
  - rewrite (edge_count_half g k Hk).
    apply edge_count_half. lia.
  - intros Hp. split; [by apply H2|]. unfold node_count.
    rewrite nodes_add_post. unfold has_post in Hp. rewrite Hp.
    apply length_set_fresh. apply DictFacts.get_None.
    apply bool_decide_eq_false_1 in Hp. by apply eq_None_not_Some.
  - intros Hp. unfold node_count. rewrite nodes_add_post.
    unfold has_post in Hp. by rewrite Hp.
Qed.

Lemma add_post_counts_growth_witness :
  edge_count (add_post (scenario 2) (kw_post "D" ["mil"; "night"])).1
  = (edge_count (scenario 2)
     + (add_post (scenario 2) (kw_post "D" ["mil"; "night"])).2)%nat.
Proof.
  apply (add_post_counts_growth 2 (scenario 2) (kw_post "D" ["mil"; "night"])).
  apply scenario_reachable.
Defined.

(** X10. A successful [remove_post] of a present document lowers
    [edge_count] by the degree of the document and [node_count] by one. *)
Theorem remove_post_counts_drop T g pid g' :
  reachable T g → has_post g pid = true → remove_post g pid = Ok g' →
  (edge_count g' + degree g pid = edge_count g)%nat ∧
  S (node_count g') = node_count g.
Proof.
  intros Hr Hp Hrem. destruct (reachable_wf _ _ Hr) as [Hwf _].
  destruct (reachable_degree_sum_even _ _ Hr) as [k Hk].
  pose proof (remove_post_counts g pid g' Hwf Hrem) as H. split.
  - rewrite (edge_count_half g k Hk).
    rewrite (edge_count_half g' (k - degree g pid)); lia.
  - apply bool_decide_eq_true_1 in Hp as [post E].
    destruct (remove_post_present g pid post Hwf E) as (a2 & E2 & _).
    rewrite E2 in Hrem. injection Hrem as <-. unfold node_count. simpl.
    apply length_remove_present; [apply Hwf|].
    apply DictFacts.get_is_Some. eauto.
Qed.

Lemma remove_post_counts_drop_witness :
  ∃ g', remove_post (scenario 2) "A" = Ok g' ∧
        (edge_count g' + degree (scenario 2) "A" = edge_count (scenario 2))%nat.
Proof.
  destruct (remove_post (scenario 2) "A") as [g'|e] eqn:E;
    [|by vm_compute in E].
  exists g'. split; [done|].
  apply (remove_post_counts_drop 2 (scenario 2) "A" g' (scenario_reachable 2)
           eq_refl E).
Defined.

Lemma node_count_add_post g p :
  node_count (add_post g p).1 =
  if has_post g (post_id p) then node_count g else S (node_count g).
Proof.
  unfold node_count, has_post. rewrite nodes_add_post.
  destruct (Dict.mem (nodes g) (post_id p)) eqn:M; [done|].
  apply length_set_fresh, DictFacts.get_None.
  apply bool_decide_eq_false_1 in M. by apply eq_None_not_Some.
Qed.

Lemma add_posts_loop_nodes g posts added created :
  (node_count (add_posts_loop g posts added created).1 + added
   = node_count g + nodes_added (add_posts_loop g posts added created).2)%nat.
Proof.
  revert g added created.
  induction posts as [|post rest IH]; intros g added created; simpl; [lia|].
  destruct (Dict.mem (nodes g) (post_id post)) eqn:M; [apply IH|].
  pose proof (node_count_add_post g post) as Hn.
  unfold has_post in Hn. rewrite M in Hn.
  destruct (add_post g post) as [g1 n]. simpl in Hn.
  specialize (IH g1 (added + 1) (created + n)). lia.
Qed.

(** X11. The statistics of [add_posts] are the growth of the graph:
    [nodes_added] is the growth of [node_count] (in any state) and
    [edges_created] the growth of [edge_count]. *)
Theorem add_posts_stats T g posts :
  reachable T g →
  node_count (add_posts g posts).1
    = (node_count g + nodes_added (add_posts g posts).2)%nat ∧
  edge_count (add_posts g posts).1
    = (edge_count g + edges_created (add_posts g posts).2)%nat.
Proof.
  intros Hr. destruct (reachable_wf _ _ Hr) as [Hwf _]. split.
  - pose proof (add_posts_loop_nodes g posts 0 0) as H. unfold add_posts. lia.
  - destruct (reachable_degree_sum_even _ _ Hr) as [k Hk].
    destruct (add_posts_loop_each g posts 0 0) as [E1 E2].
    pose proof (add_post_each_counts g posts Hwf) as H.
    unfold add_posts. rewrite E2. rewrite (edge_count_half g k Hk).
    apply edge_count_half. rewrite E1. lia.
Qed.

Lemma add_posts_stats_witness :
  node_count (add_posts (scenario 2) [doc_A; kw_post "D" ["mil"; "night"]]).1
  = (node_count (scenario 2)
     + nodes_added (add_posts (scenario 2) [doc_A; kw_post "D" ["mil"; "night"]]).2)%nat.
Proof.
  apply (add_posts_stats 2 (scenario 2) [doc_A; kw_post "D" ["mil"; "night"]]).
  apply scenario_reachable.
Defined.

(** ** Neighbours *)

Lemma neighbor_ids g (inner : Dict.t Edge) :
  (∀ nb e, (nb, e) ∈ inner →
           ∃ p, Dict.get (nodes g) nb = Some p ∧ post_id p = nb) →
  (λ x, post_id x.1) <$>
    omap (λ '(neighbor_id, edge),
            neighbor ← Dict.get (nodes g) neighbor_id; Some (neighbor, edge))
         inner
  = Dict.keys inner :> list string.
Proof.
  induction inner as [|[nb e] inner IH]; intros H; [done|].
  destruct (H nb e ltac:(left)) as (p & Hp & Hid).
  cbn [omap list_omap]. rewrite Hp. cbn [mbind option_bind].
  rewrite fmap_cons. cbn [fst]. rewrite Hid.
  unfold Dict.keys. rewrite fmap_cons. f_equal.
  apply IH. intros nb' e' Hin. apply (H nb' e'). by right.
Qed.

(** X12. [get_neighbors] drops no adjacency entry and invents none: it has
    one pair per entry of the adjacency dict of the id, no neighbour twice,
    and holds [(p, e)] exactly when [e] is the edge from the id to the current
    document [p]. *)
Theorem get_neighbors_exact T g pid :
  reachable T g →
  length (get_neighbors g pid) = degree g pid ∧
  NoDup ((λ x, post_id x.1) <$> get_neighbors g pid) ∧
  ∀ p e, (p, e) ∈ get_neighbors g pid ↔
         edge_at g pid (post_id p) = Some e ∧ get_post g (post_id p) = Some p.
Proof.
  intros [Hwf _]%reachable_wf. unfold get_neighbors, degree, get_post.
  assert (Hnd : NoDup (Dict.keys (default [] (Dict.get (adj g) pid)))).
  { destruct (Dict.get (adj g) pid) as [inner|] eqn:E; simpl.
    - by apply (wf_inner _ Hwf pid). - constructor. }
  assert (Hin : ∀ nb e, (nb, e) ∈ default [] (Dict.get (adj g) pid) →
                        edge_at g pid nb = Some e).
  { intros nb e Hnb. unfold edge_at, slot.
    destruct (Dict.get (adj g) pid) as [inner|] eqn:E; simpl in *.
    - by apply DictFacts.elem_of_get. - by apply elem_of_nil in Hnb. }
  assert (Hids := neighbor_ids g (default [] (Dict.get (adj g) pid))).
  rewrite Hids; cycle 1.
  { intros nb e Hs%Hin.
    destruct (edge_at_nodes _ _ _ _ Hwf Hs) as (_ & [p Hp]%DictFacts.get_is_Some & _).
    exists p. split; [done|]. by apply (wf_node_id _ Hwf). }
  split_and!.
  - rewrite <- (length_fmap (λ x, post_id x.1)), Hids.
    + unfold Dict.keys. by rewrite length_fmap.
    + intros nb e Hs%Hin.
      destruct (edge_at_nodes _ _ _ _ Hwf Hs) as (_ & [p Hp]%DictFacts.get_is_Some & _).
      exists p. split; [done|]. by apply (wf_node_id _ Hwf).
  - done.
  - intros p e. rewrite list_elem_of_omap. split.
    + intros ([nb e'] & Hnb & Hf).
      destruct (Dict.get (nodes g) nb) as [q|] eqn:Hq; simplify_eq/=.
      rewrite (wf_node_id _ Hwf _ _ Hq). split; [by apply Hin | done].
    + intros [(inner & Hi & He)%slot_Some_inner Hp].
      exists (post_id p, e). rewrite Hi. simpl. split.
      * by apply DictFacts.get_elem_of.
      * by rewrite Hp.
Qed.

Lemma get_neighbors_exact_witness :
  length (get_neighbors (scenario 2) "A") = degree (scenario 2) "A".
Proof. apply (get_neighbors_exact 2 (scenario 2) "A"), scenario_reachable. Defined.

(** ** Slices of the degree ranking *)

Lemma length_degree_items g : wf g → length (degree_items g) = node_count g.
Proof.
  intros Hwf. rewrite <- (length_fmap (λ x, post_id x.1)).
  rewrite degree_items_ids by done. unfold Dict.keys, node_count.
  by rewrite length_fmap.
Qed.

(** X13. [get_most_connected] returns [min limit node_count] pairs for a
    limit [≥ 0] and [node_count - |limit|] pairs (none if that is negative)
    for a negative limit; with a limit of at least [node_count] it lists every
    current document once, each with its degree. *)
Theorem most_connected_slice T g N :
  reachable T g →
  length (get_most_connected g N)
    = (if decide (0 ≤ N)%Z then Z.to_nat N `min` node_count g
       else node_count g - Z.to_nat (- N))%nat ∧
  ((Z.of_nat (node_count g) ≤ N)%Z →
   (λ x, post_id x.1) <$> get_most_connected g N ≡ₚ Dict.keys (nodes g) ∧
   ∀ p d, (p, d) ∈ get_most_connected g N ↔
          get_post g (post_id p) = Some p ∧ d = degree g (post_id p)).
Proof.
  intros [Hwf _]%reachable_wf.
  pose proof (length_degree_items g Hwf) as Hlen.
  pose proof (sort_desc_Permutation snd (degree_items g)) as Hperm.
  assert (Hls : length (sort_desc snd (degree_items g)) = node_count g)
    by by rewrite Hperm.
  unfold get_most_connected, slice_to. split.
  - destruct (Z.leb_spec 0 N); rewrite length_take, Hls.
    + rewrite decide_True by done. done.
    + rewrite decide_False by lia. lia.
  - intros HN. rewrite (proj2 (Z.leb_le 0 N)) by lia.
    rewrite take_ge by lia. split.
    + rewrite Hperm. by rewrite degree_items_ids.
    + intros p d. rewrite Hperm. unfold get_post, degree. split.
      * intros (Hp & nbrs & Hn & ->)%(degree_items_elem g p d Hwf).
        by rewrite Hn.
      * intros [Hp ->].
        assert (Ha : post_id p ∈ Dict.keys (adj g)).
        { rewrite (wf_adj_keys _ Hwf). apply DictFacts.get_is_Some. eauto. }
        apply DictFacts.get_is_Some in Ha as [nbrs Hn]. rewrite Hn. simpl.
        apply list_elem_of_omap. exists (post_id p, nbrs). split.
        -- by apply DictFacts.get_elem_of.
        -- by rewrite Hp.
Qed.

Lemma most_connected_slice_witness :
  length (get_most_connected (scenario 2) (-1))
  = (if decide (0 ≤ -1)%Z then Z.to_nat (-1) `min` node_count (scenario 2)
     else node_count (scenario 2) - Z.to_nat (- -1))%nat.
Proof. apply (most_connected_slice 2 (scenario 2) (-1)), scenario_reachable. Defined.

(** ** Components are the connected components *)

Section bfs_facts.
Context (a : Dict.t (Dict.t Edge)).

Lemma bfs_closed fuel visited queue comp visited' new :
  bfs fuel a visited queue comp = Some (visited', comp ++ new) →
  ∀ x y, x ∈ new → adjacent a x y → y ∈ visited'.
Proof.
  revert visited queue comp new.
  induction fuel as [|fuel IH]; intros visited queue comp new.
  - destruct queue; simpl; [|done]. intros [= <- E] x y Hx.
    rewrite <- (app_nil_r comp) in E at 1. apply app_inv_head in E. subst new.
    by apply elem_of_nil in Hx.
  - destruct queue as [|current rest]; simpl.
    + intros [= <- E] x y Hx.
      rewrite <- (app_nil_r comp) in E at 1. apply app_inv_head in E.
      subst new. by apply elem_of_nil in Hx.
    + case_decide as Hv; [apply IH|]. intros Hb.
      destruct (bfs_spec _ _ _ _ _ _ _ Hb) as (new1 & E & _ & _ & Hvis & Hq & _).
      rewrite <- app_assoc in E. apply app_inv_head in E. subst new.
      rewrite app_assoc in Hb. intros x y [->|Hx]%elem_of_cons Hy.
      * destruct (decide (y ∈ {[current]} ∪ visited)) as [Hin|Hn].
        -- rewrite Hvis. set_solver.
        -- apply Hq. apply elem_of_app. right.
           apply list_elem_of_filter. split; [done | exact Hy].
      * by apply (IH _ _ _ _ Hb x y).
Qed.

Lemma bfs_reach (P : string → Prop) fuel visited queue comp visited' new :
  (∀ v x, P v → adjacent a v x → P x) →
  (∀ x, x ∈ queue → P x) →
  bfs fuel a visited queue comp = Some (visited', comp ++ new) →
  ∀ x, x ∈ new → P x.
Proof.
  intros HP. revert visited queue comp new.
  induction fuel as [|fuel IH]; intros visited queue comp new Hq.
  - destruct queue; simpl; [|done]. intros [= <- E] x Hx.
    rewrite <- (app_nil_r comp) in E at 1. apply app_inv_head in E. subst new.
    by apply elem_of_nil in Hx.
  - destruct queue as [|current rest]; simpl.
    + intros [= <- E] x Hx.
      rewrite <- (app_nil_r comp) in E at 1. apply app_inv_head in E.
      subst new. by apply elem_of_nil in Hx.
    + case_decide as Hv.
      * apply IH. intros x Hx. apply Hq. by right.
      * intros Hb.
        destruct (bfs_spec _ _ _ _ _ _ _ Hb) as (new1 & E & _).
        rewrite <- app_assoc in E. apply app_inv_head in E. subst new.
        rewrite app_assoc in Hb.
        assert (Hc : P current) by (apply Hq; left).
        intros x [->|Hx]%elem_of_cons; [done|].
        eapply IH; [|exact Hb|exact Hx].
        intros z [Hz|[_ Hz]%list_elem_of_filter]%elem_of_app.
        -- apply Hq. by right.
        -- by apply (HP current).
Qed.

Lemma components_loop_linked_up fuel ids (visited : gset string) comps out :
  (∀ x y, adjacent a x y → adjacent a y x) →
  (∀ v y, v ∈ visited → adjacent a v y → y ∈ visited) →
  Forall (linked_up a) comps →
  components_loop fuel a ids visited comps = Some out →
  Forall (linked_up a) out.
Proof.
  intros Hsym. revert visited comps.
  induction ids as [|node_id rest IH]; intros visited comps Hcl Hcs; simpl.
  - by intros [= <-].
  - case_decide as Hv; [by apply IH|].
    destruct (bfs fuel a visited [node_id] []) as [[visited' component]|] eqn:Hb;
      simpl; [|done].
    destruct (bfs_spec _ _ _ _ _ _ _ Hb)
      as (new & E & _ & Hdis & Hvis & _ & _ & Hhd).
    simpl in E. subst component.
    destruct (Hhd node_id [] eq_refl Hv) as [t Ht].
    pose proof (bfs_closed fuel visited [node_id] [] visited' new Hb) as Hclosed.
    assert (Hcl' : ∀ v y, v ∈ visited' → adjacent a v y → y ∈ visited').
    { intros v y. rewrite Hvis at 1.
      intros [Hin|Hin%elem_of_list_to_set]%elem_of_union Hy.
      - rewrite Hvis. apply elem_of_union. left. by apply (Hcl v).
      - by apply (Hclosed v). }
    apply IH; [done|].
    apply Forall_app. split; [done|]. constructor; [|constructor]. split.
    + intros x y Hx Hy. pose proof (Hclosed x y Hx Hy) as Hy'.
      rewrite Hvis in Hy'.
      apply elem_of_union in Hy' as [Hy'|Hy'%elem_of_list_to_set]; [|done].
      exfalso. apply (Hdis x Hx). apply (Hcl y); [done|]. by apply Hsym.
    + exists node_id. split; [rewrite Ht; left|].
      apply (bfs_reach (rtc (adjacent a) node_id)
               fuel visited [node_id] [] visited' new).
      * intros v x Hvx Hx. eapply rtc_r; [exact Hvx | exact Hx].
      * intros x ->%list_elem_of_singleton. done.
      * exact Hb.
Qed.

End bfs_facts.

Lemma adjacent_linked g u v : adjacent (adj g) u v ↔ linked g u v.
Proof. apply elem_of_nbrs. Qed.

(** The components before sorting, for a well-formed graph. *)
Lemma components_raw g :
  wf g →
  ∃ news,
    get_connected_components g = Some (sort_desc length news) ∧
    NoDup (concat news) ∧
    (∀ x, x ∈ concat news ↔ x ∈ Dict.keys (nodes g)) ∧
    Forall (linked_up (adj g)) news.
Proof.
  intros Hwf. unfold get_connected_components.
  assert (Hcl : ∀ v x, adjacent (adj g) v x → x ∈ Dict.keys (nodes g)).
  { intros v x [e He]%adjacent_linked.
    by destruct (edge_at_nodes _ _ _ _ Hwf He) as (_ & ? & _). }
  destruct (components_loop_spec (adj g) (Dict.keys (nodes g)) ∅ [])
    as (news & E & Hnd & Hin & Hcov & _).
  { apply Hwf. }
  { intros v x Hx. right. by apply (Hcl v). }
  exists news. rewrite E. simpl. split_and!; [done | done | |].
  - intros x. split; [by intros [_ ?]%Hin|].
    intros Hx. destruct (Hcov x Hx) as [?|?]; [set_solver | done].
  - apply (components_loop_linked_up (adj g) (bfs_budget (adj g))
             (Dict.keys (nodes g)) ∅ [] news); [| |done|done].
    + intros x y [e He]%adjacent_linked. apply adjacent_linked.
      exists e. by apply edge_at_sym.
    + intros v y ?. set_solver.
Qed.

Lemma rtc_linked_sym g a b : wf g → connected g a b → connected g b a.
Proof.
  intros Hwf. induction 1 as [|x y z [e He] _ IH]; [done|].
  eapply rtc_r; [exact IH|]. exists e. by apply edge_at_sym.
Qed.

(** X14. The components are the connected components of the graph: two ids,
    the first a current node, are in the same returned component iff a path
    of edges joins them. In particular an edge never crosses two components. *)
Theorem components_connected T g comps a b :
  reachable T g → get_connected_components g = Some comps →
  has_post g a = true →
  same_component comps a b ↔ connected g a b.
Proof.
  intros [Hwf _]%reachable_wf Hc Ha.
  destruct (components_raw g Hwf) as (news & E & Hnd & Hcov & Hl).
  rewrite E in Hc. injection Hc as <-.
  pose proof (sort_desc_Permutation length news) as Hp.
  rewrite <- Hp in Hl. rewrite Forall_forall in Hl.
  assert (Hstep : ∀ u v, rtc (adjacent (adj g)) u v → connected g u v).
  { intros u v. induction 1 as [|x y z Hxy _ IH]; [done|].
    eapply rtc_l; [|exact IH]. by apply adjacent_linked. }
  split.
  - intros (c & Hc & Hac & Hbc).
    destruct (Hl c Hc) as [_ (h & _ & Hh)].
    etrans; [apply (rtc_linked_sym g h a Hwf), Hstep, Hh, Hac|].
    by apply Hstep, Hh.
  - intros Hab.
    assert (Hin : a ∈ concat (sort_desc length news)).
    { rewrite (concat_Permutation _ _ Hp). apply Hcov.
      apply bool_decide_eq_true_1 in Ha. by apply DictFacts.get_is_Some. }
    apply elem_of_concat in Hin as (c & Hc & Hac).
    exists c. split_and!; [done | done |].
    destruct (Hl c Hc) as [Hclosed _].
    clear Ha. induction Hab as [|x y z Hxy _ IH]; [done|].
    apply IH. apply (Hclosed x y Hac). by apply adjacent_linked.
Qed.

Lemma components_connected_witness :
  same_component [["A"; "B"; "C"]] "B" "C" ↔ connected (scenario 2) "B" "C".
Proof.
  apply (components_connected 2 (scenario 2) [["A"; "B"; "C"]] "B" "C").
  - apply scenario_reachable.
  - by vm_compute.
  - reflexivity.
Defined.

(** ** Clusters *)

Lemma posts_of_ok g comp :
  (∀ x, x ∈ comp → x ∈ Dict.keys (nodes g)) →
  (∀ i p, Dict.get (nodes g) i = Some p → post_id p = i) →
  ∃ posts, posts_of g comp = Ok posts ∧ post_id <$> posts = comp ∧
           ∀ p, p ∈ posts → Dict.get (nodes g) (post_id p) = Some p.
Proof.
  intros Hin Hid. induction comp as [|pid rest IH]; simpl.
  - exists []. split_and!; [done | done |]. intros p ?%elem_of_nil. done.
  - destruct IH as (posts & -> & Hids & Hps).
    { intros x Hx. apply Hin. by right. }
    assert (Hp : pid ∈ Dict.keys (nodes g)) by (apply Hin; left).
    apply DictFacts.get_is_Some in Hp as [p Hp].
    unfold subscript. rewrite Hp. simpl. exists (p :: posts).
    pose proof (Hid _ _ Hp) as Hpid. split_and!; [done | |].
    + rewrite fmap_cons. by rewrite Hids, Hpid.
    + intros q [->|Hq]%elem_of_cons; [by rewrite Hpid | by apply Hps].
Qed.

Lemma clusters_loop_ok g min_size comps clusters :
  (∀ c x, c ∈ comps → x ∈ c → x ∈ Dict.keys (nodes g)) →
  (∀ i p, Dict.get (nodes g) i = Some p → post_id p = i) →
  ∃ more,
    clusters_loop g min_size comps clusters = Ok (clusters ++ more) ∧
    cluster_ids <$> more
      = filter (λ c, (min_size ≤ Z.of_nat (length c))%Z) comps ∧
    ∀ cl p, cl ∈ more → p ∈ cl → Dict.get (nodes g) (post_id p) = Some p.
Proof.
  intros Hin Hid. revert clusters.
  induction comps as [|comp rest IH]; intros clusters; simpl.
  - exists []. rewrite app_nil_r. split_and!; [done | done |].
    intros cl p ?%elem_of_nil. done.
  - assert (Hrest : ∀ c x, c ∈ rest → x ∈ c → x ∈ Dict.keys (nodes g)).
    { intros c x Hc. apply Hin. by right. }
    rewrite filter_cons.
    destruct (Z.leb_spec min_size (Z.of_nat (length comp))) as [Hle|Hlt].
    + destruct (posts_of_ok g comp) as (posts & -> & Hids & Hps); [|done|].
      { intros x. apply Hin. left. }
      simpl. destruct (IH Hrest (clusters ++ [posts])) as (more & -> & Hm & Hmp).
      exists (posts :: more). rewrite <- app_assoc. split_and!; [done | |].
      * rewrite decide_True by done. rewrite fmap_cons. unfold cluster_ids at 1.
        by rewrite Hids, Hm.
      * intros cl p [->|Hcl]%elem_of_cons; [apply Hps | by apply Hmp].
    + destruct (IH Hrest clusters) as (more & -> & Hm & Hmp).
      exists more. split_and!; [done | | done].
      by rewrite decide_False by lia.
Qed.

(** X15. [get_clusters] never raises: it returns, in the order of the
    components, the components of at least [min_size] ids with each id
    replaced by the document stored under it. *)
Theorem get_clusters_ok T g min_size :
  reachable T g →
  ∃ comps clusters,
    get_connected_components g = Some comps ∧
    get_clusters g min_size = Some (Ok clusters) ∧
    cluster_ids <$> clusters
      = filter (λ c, (min_size ≤ Z.of_nat (length c))%Z) comps ∧
    ∀ cl p, cl ∈ clusters → p ∈ cl → get_post g (post_id p) = Some p.
Proof.
  intros [Hwf _]%reachable_wf.
  destruct (components_raw g Hwf) as (news & E & _ & Hcov & _).
  pose proof (sort_desc_Permutation length news) as Hp.
  destruct (clusters_loop_ok g min_size (sort_desc length news) [])
    as (more & Hloop & Hm & Hmp).
  { intros c x Hc Hx. apply Hcov. rewrite <- (concat_Permutation _ _ Hp).
    apply elem_of_concat. eauto. }
  { apply Hwf. }
  exists (sort_desc length news), more. unfold get_clusters. rewrite E. simpl.
  by rewrite Hloop.
Qed.

Lemma get_clusters_ok_witness :
  ∃ comps clusters,
    get_connected_components (scenario 2) = Some comps ∧
    get_clusters (scenario 2) 2 = Some (Ok clusters) ∧
    cluster_ids <$> clusters
      = filter (λ c, (2 ≤ Z.of_nat (length c))%Z) comps ∧
    ∀ cl p, cl ∈ clusters → p ∈ cl → get_post (scenario 2) (post_id p) = Some p.
Proof. apply (get_clusters_ok 2 (scenario 2) 2), scenario_reachable. Defined.

(** ** Building a graph from a list of documents *)

Lemma get_nodes_add_post_each g posts i :
  Dict.get (nodes (add_post_each g posts).1) i =
  match Dict.get (nodes g) i with
  | Some p => Some p
  | None => head (filter (λ p, post_id p = i) posts)
  end.
Proof.
  revert g. induction posts as [|p rest IH]; intros g; simpl.
  - by destruct (Dict.get (nodes g) i).
  - pose proof (get_nodes_add_post g p i) as H1.
    destruct (add_post g p) as [g1 n]. specialize (IH g1).
    destruct (add_post_each g1 rest) as [g2 m]. simpl in *.
    rewrite IH, H1, filter_cons. clear IH H1.
    destruct (decide (i = post_id p)) as [->|Hne].
    + rewrite decide_True by done.
      by destruct (Dict.get (nodes g) (post_id p)).
    + rewrite decide_False by auto. done.
Qed.

Lemma get_post_from_posts posts T i :
  get_post (from_posts posts T) i = head (filter (λ p, post_id p = i) posts).
Proof.
  unfold from_posts, add_posts, get_post.
  rewrite (proj1 (add_posts_loop_each (new_graph T) posts 0 0)).
  apply get_nodes_add_post_each.
Qed.

(** X16. [from_posts] keeps, for every id, the first document of the list
    that has it; later documents with the same id are dropped. The graph has
    the threshold it was given. *)
Theorem from_posts_first_wins posts T i :
  get_post (from_posts posts T) i = head (filter (λ p, post_id p = i) posts) ∧
  min_shared_keywords (from_posts posts T) = T.
Proof.
  split; [apply get_post_from_posts|].
  unfold from_posts, add_posts.
  rewrite (proj1 (add_posts_loop_each (new_graph T) posts 0 0)).
  apply add_post_each_threshold.
Qed.

Lemma nodes_add_post_each_indep g h posts :
  nodes g = nodes h →
  nodes (add_post_each g posts).1 = nodes (add_post_each h posts).1.
Proof.
  revert g h. induction posts as [|p rest IH]; intros g h Hn; simpl; [done|].
  pose proof (nodes_add_post g p) as Hg. pose proof (nodes_add_post h p) as Hh.
  rewrite Hn in Hg. rewrite <- Hh in Hg. clear Hh.
  destruct (add_post g p) as [g1 n], (add_post h p) as [h1 n'].
  specialize (IH g1 h1 Hg).
  by destruct (add_post_each g1 rest), (add_post_each h1 rest).
Qed.

Lemma from_posts_reachable posts T : reachable T (from_posts posts T).
Proof. apply reach_add_posts, reach_new. Qed.

(** X17. The same documents under two thresholds: raising the threshold only
    removes edges, and all thresholds up to 1 give the same edges. *)
Theorem threshold_monotone posts T T' :
  ((T ≤ T')%Z →
   ∀ a b e, edge_at (from_posts posts T') a b = Some e →
            edge_at (from_posts posts T) a b = Some e) ∧
  ((T ≤ 1)%Z → (T' ≤ 1)%Z →
   ∀ a b, edge_at (from_posts posts T) a b = edge_at (from_posts posts T') a b).
Proof.
  destruct (reachable_wf _ _ (from_posts_reachable posts T)) as [Hwf HT].
  destruct (reachable_wf _ _ (from_posts_reachable posts T')) as [Hwf' HT'].
  assert (Hn : nodes (from_posts posts T') = nodes (from_posts posts T)).
  { unfold from_posts, add_posts.
    rewrite !(proj1 (add_posts_loop_each _ posts 0 0)).
    by apply nodes_add_post_each_indep. }
  assert (Hsize : ∀ s : gset string, s ≠ ∅ → (1 ≤ Z.of_nat (size s))%Z).
  { intros s Hs. destruct (decide (size s = 0)) as [Hz%size_empty_iff|]; [|lia].
    by apply leibniz_equiv in Hz. }
  split.
  - intros Hle a b e. rewrite (wf_edges _ Hwf), (wf_edges _ Hwf'), Hn, HT, HT'.
    intros (pa & pb & ? & ? & ? & ? & ? & ->).
    exists pa, pb. split_and!; try done. lia.
  - intros H1 H1' a b. apply option_eq. intros e.
    rewrite (wf_edges _ Hwf), (wf_edges _ Hwf'), Hn, HT, HT'.
    split; intros (pa & pb & ? & ? & ? & Hs & ? & ->);
      exists pa, pb; split_and!; try done; specialize (Hsize _ Hs); lia.
Qed.

Lemma threshold_monotone_witness :
  edge_at (from_posts [doc_A; doc_B; doc_C] 1) "A" "B"
  = Some (mkEdge "B" "A" {["mil"; "drone"]}).
Proof.
  apply (proj1 (threshold_monotone [doc_A; doc_B; doc_C] 1 2)).
  - lia.
  - by vm_compute.
Defined.

(** ** Insertion undone by removal *)

Lemma dict_ext {V} (d1 d2 : Dict.t V) :
  NoDup (Dict.keys d1) → Dict.keys d1 = Dict.keys d2 →
  (∀ k, Dict.get d1 k = Dict.get d2 k) → d1 = d2.
Proof.
  revert d2. induction d1 as [|[k1 v1] d1 IH]; intros [|[k2 v2] d2]; try done.
  change (Dict.keys ((k1, v1) :: d1)) with (k1 :: Dict.keys d1).
  change (Dict.keys ((k2, v2) :: d2)) with (k2 :: Dict.keys d2).
  intros [Hk Hnd]%NoDup_cons [= <- Hkeys] Hget.
  pose proof (Hget k1) as H1. simpl in H1. rewrite !decide_True in H1 by done.
  injection H1 as <-. f_equal. apply IH; [done | done |].
  intros k. specialize (Hget k). simpl in Hget.
  destruct (decide (k1 = k)) as [<-|Hne]; [|done].
  assert (Dict.get d1 k1 = None) as -> by by apply DictFacts.get_None.
  symmetry. apply DictFacts.get_None. by rewrite <- Hkeys.
Qed.

Lemma filter_ne_absent (l : list string) x :
  x ∉ l → filter (λ y, y ≠ x) l = l.
Proof.
  induction l as [|y l IH]; [done|].
  rewrite not_elem_of_cons. intros [Hne Hl].
  rewrite filter_cons, decide_True by auto. by rewrite IH.
Qed.

Lemma get_link_candidates T pid cc a n x :
  NoDup (Dict.keys cc) → pid ∉ Dict.keys cc → x ≠ pid →
  Dict.get (link_candidates T pid cc a n).1 x =
  match qualifying T cc x with
  | Some s => Some (Dict.set (default [] (Dict.get a x)) pid (mkEdge pid x s))
  | None => Dict.get a x
  end.
Proof.
  intros Hnd Hpid Hx. revert a n.
  induction cc as [|[o s] cc IH]; intros a n; [done|].
  change (Dict.keys ((o, s) :: cc)) with (o :: Dict.keys cc) in *.
  apply NoDup_cons in Hnd as [Ho Hnd].
  apply not_elem_of_cons in Hpid as [Hpo Hpid].
  apply DictFacts.get_None in Ho.
  assert (Hq : qualifying T ((o, s) :: cc) x =
               if decide (o = x)
               then (if (T <=? Z.of_nat (size s))%Z then Some s else None)
               else qualifying T cc x).
  { unfold qualifying. simpl. by destruct (decide (o = x)). }
  rewrite Hq. cbn [link_candidates].
  destruct (T <=? Z.of_nat (size s))%Z.
  - rewrite IH by done. rewrite get_add_edge by done.
    destruct (decide (o = x)) as [->|Hox].
    + unfold qualifying. by rewrite Ho.
    + rewrite decide_False by auto. done.
  - rewrite IH by done.
    destruct (decide (o = x)) as [->|Hox]; [|done].
    unfold qualifying. by rewrite Ho.
Qed.

Lemma get_unlink_neighbors_in a pid nbrs a' x :
  NoDup nbrs → x ∈ nbrs → unlink_neighbors a pid nbrs = Ok a' →
  Dict.get a' x = (λ inner, Dict.remove inner pid) <$> Dict.get a x.
Proof.
  revert a. induction nbrs as [|nb rest IH]; intros a Hnd Hx; simpl.
  - by apply elem_of_nil in Hx.
  - apply NoDup_cons in Hnd as [Hnb Hnd].
    unfold subscript. destruct (Dict.get a nb) as [inner|] eqn:E; simpl; [|done].
    intros Hu. destruct (decide (x = nb)) as [->|Hne].
    + rewrite (get_unlink_neighbors _ _ _ _ nb Hu Hnb).
      by rewrite DictFacts.get_set_eq, E.
    + apply elem_of_cons in Hx as [?|Hx]; [done|].
      rewrite (IH _ Hnd Hx Hu). by rewrite DictFacts.get_set_ne.
Qed.

Lemma deindex_index_post (idx : gmap string (gset string)) pid kws :
  (∀ kw, pid ∉ default ∅ (idx !! kw)) → (∀ kw, idx !! kw ≠ Some ∅) →
  deindex_post (index_post idx pid kws) pid kws = idx.
Proof.
  intros Hpid Hne. apply map_eq. intros kw.
  rewrite deindex_post_lookup, index_post_lookup.
  destruct (decide (kw ∈ kws)); [|done]. simpl.
  specialize (Hpid kw). specialize (Hne kw).
  assert (E : (default ∅ (idx !! kw) ∪ {[pid]}) ∖ {[pid]} = default ∅ (idx !! kw))
    by set_solver.
  rewrite E. destruct (idx !! kw) as [s|]; simpl.
  - rewrite decide_False; [done | congruence].
  - by rewrite decide_True.
Qed.

(** X18. Removing a document right after inserting it under a new id gives
    back the state before the insertion, exactly: node table, adjacency
    (entry order included) and index. *)
Theorem add_then_remove T g p :
  reachable T g → has_post g (post_id p) = false →
  remove_post (add_post g p).1 (post_id p) = Ok g.
Proof.
  intros [Hwf _]%reachable_wf Hp.
  apply bool_decide_eq_false_1 in Hp. apply eq_None_not_Some in Hp.
  pose proof (proj1 (DictFacts.get_None _ _) Hp) as Hnl.
  assert (Hna : post_id p ∉ Dict.keys (adj g)) by by rewrite (wf_adj_keys _ Hwf).
  pose proof (add_post_fresh_wf g p Hwf Hp) as Hwf1. revert Hwf1.
  rewrite add_post_fresh_eq by done.
  set (n := post_id p). set (kws := post_keywords p).
  set (cc := find_candidates (keyword_index g) kws).
  set (adj1 := Dict.set (adj g) n []).
  set (a2 := (link_candidates (min_shared_keywords g) n cc adj1 0).1).
  simpl. intros Hwf1.
  assert (Hcc : NoDup (Dict.keys cc)) by apply find_candidates_NoDup.
  assert (Hnc : n ∉ Dict.keys cc) by by apply candidate_not_self.
  assert (Hk2 : Dict.keys a2 = Dict.keys (adj g) ++ [n]).
  { unfold a2. rewrite keys_link_candidates.
    - unfold adj1. by rewrite DictFacts.keys_set_fresh.
    - apply DictFacts.elem_of_keys_set. by left.
    - intros o Ho%(candidate_is_node g p Hwf).
      apply DictFacts.elem_of_keys_set. right. by rewrite (wf_adj_keys _ Hwf). }
  assert (Hn2 : n ∈ Dict.keys a2).
  { rewrite Hk2. apply elem_of_app. right. left. }
  apply DictFacts.get_is_Some in Hn2 as [inner_n Hin].
  assert (Hnbrs : ∀ x, x ∈ Dict.keys inner_n ↔
                       is_Some (qualifying (min_shared_keywords g) cc x)).
  { intros x. rewrite <- DictFacts.get_is_Some.
    assert (Hs : Dict.get inner_n x = slot a2 n x)
      by (unfold slot; by rewrite Hin).
    rewrite Hs. unfold a2. rewrite slot_link_candidates by done.
    rewrite decide_True by done.
    destruct (qualifying _ cc x); [by split; eauto|].
    unfold adj1, n. rewrite (slot_adj1 g p Hwf Hp). fold n (edge_at g n x).
    split; [|by intros [? ?]]. intros [e He].
    destruct (edge_at_nodes _ _ _ _ Hwf He) as (? & _). done. }
  assert (Hnd_n : NoDup (Dict.keys inner_n)).
  { eapply (inner_NoDup_link_candidates _ n cc adj1 0); [|exact Hin].
    intros x inner. unfold adj1. rewrite DictFacts.get_set.
    case_decide; [intros [= <-]; constructor | apply Hwf]. }
  destruct (unlink_neighbors_ok a2 n (Dict.keys inner_n))
    as (a3 & Hu & Hk3 & _).
  { intros x [s Hq]%Hnbrs. rewrite Hk2. apply elem_of_app. left.
    rewrite (wf_adj_keys _ Hwf). apply (candidate_is_node g p Hwf).
    apply DictFacts.get_is_Some. unfold qualifying in Hq.
    change (is_Some (Dict.get cc x)).
    destruct (Dict.get cc x); [eauto | done]. }
  assert (E1 : Dict.remove (Dict.set (nodes g) n p) n = nodes g)
    by by apply DictFacts.remove_set_fresh.
  assert (E3 : deindex_post (index_post (keyword_index g) n kws) n kws
               = keyword_index g).
  { apply deindex_index_post; [|apply (wf_index_nonempty _ Hwf)].
    intros kw Hkw. apply (wf_index _ Hwf) in Hkw as (q & Hq & _).
    unfold n in Hq. congruence. }
  assert (E2 : Dict.remove a3 n = adj g).
  { apply dict_ext.
    - apply DictFacts.NoDup_keys_remove. rewrite Hk3, Hk2.
      apply NoDup_app. split_and!.
      + rewrite (wf_adj_keys _ Hwf). apply (wf_nodes_NoDup _ Hwf).
      + intros x Hx ->%list_elem_of_singleton. done.
      + apply NoDup_singleton.
    - rewrite DictFacts.keys_remove, Hk3, Hk2, filter_app.
      rewrite (filter_cons _ n), decide_False by auto.
      rewrite filter_nil, app_nil_r. by apply filter_ne_absent.
    - intros x. rewrite DictFacts.get_remove.
      destruct (decide (n = x)) as [<-|Hne].
      { symmetry. by apply DictFacts.get_None. }
      assert (Hg2 : Dict.get a2 x =
                match qualifying (min_shared_keywords g) cc x with
                | Some s => Some (Dict.set (default [] (Dict.get (adj g) x)) n
                                    (mkEdge n x s))
                | None => Dict.get (adj g) x
                end).
      { unfold a2. rewrite get_link_candidates by auto.
        unfold adj1. by rewrite DictFacts.get_set_ne. }
      destruct (qualifying (min_shared_keywords g) cc x) as [s|] eqn:Hq.
      + rewrite (get_unlink_neighbors_in _ _ _ _ x Hnd_n ltac:(apply Hnbrs; eauto) Hu).
        rewrite Hg2. simpl.
        assert (Hx : x ∈ Dict.keys (adj g)).
        { rewrite (wf_adj_keys _ Hwf). apply (candidate_is_node _ p Hwf).
          apply DictFacts.get_is_Some. unfold qualifying in Hq.
          change (is_Some (Dict.get cc x)).
          destruct (Dict.get cc x); [eauto | done]. }
        apply DictFacts.get_is_Some in Hx as [inner Hi]. rewrite Hi. simpl.
        f_equal. apply DictFacts.remove_set_fresh.
        intros [e He]%DictFacts.get_is_Some.
        assert (Hs : edge_at g x n = Some e)
          by (unfold edge_at, slot; by rewrite Hi).
        destruct (edge_at_nodes _ _ _ _ Hwf Hs) as (_ & ? & _). done.
      + rewrite (get_unlink_neighbors _ _ _ _ x Hu); [done|].
        intros [? ?]%Hnbrs. congruence. }
  unfold remove_post. simpl. rewrite DictFacts.get_set_eq. fold kws.
  rewrite Hin. simpl. rewrite Hu. simpl.
  unfold del, Dict.mem. rewrite bool_decide_eq_true_2; cycle 1.
  { apply DictFacts.get_is_Some. rewrite Hk3, Hk2. apply elem_of_app. right. left. }
  simpl. rewrite E1, E2, E3. by destruct g.
Qed.

Lemma add_then_remove_witness :
  remove_post (add_post (scenario 2) (kw_post "D" ["mil"; "night"])).1 "D"
  = Ok (scenario 2).
Proof.
  apply (add_then_remove 2 (scenario 2) (kw_post "D" ["mil"; "night"])).
  - apply scenario_reachable.
  - reflexivity.
Defined.

(** ** The order of insertion *)

Lemma filter_id_short posts i :
  NoDup (post_id <$> posts) →
  (length (filter (λ p, post_id p = i) posts) ≤ 1)%nat.
Proof.
  induction posts as [|p rest IH]; [simpl; lia|].
  rewrite fmap_cons. intros [Hp Hnd]%NoDup_cons. rewrite filter_cons.
  destruct (decide (post_id p = i)) as [<-|Hne]; [|by apply IH].
  assert (filter (λ q, post_id q = post_id p) rest = []) as ->; [|simpl; lia].
  destruct (filter _ rest) as [|q l] eqn:E; [done|].
  assert (Hq : q ∈ filter (λ q, post_id q = post_id p) rest) by (rewrite E; left).
  apply list_elem_of_filter in Hq as [Hid Hq]. exfalso. apply Hp.
  rewrite <- Hid. by apply list_elem_of_fmap_2.
Qed.

Lemma get_post_from_posts_perm posts posts' T i :
  posts ≡ₚ posts' → NoDup (post_id <$> posts) →
  get_post (from_posts posts T) i = get_post (from_posts posts' T) i.
Proof.
  intros Hperm Hnd. rewrite !get_post_from_posts.
  pose proof (filter_id_short posts i Hnd) as Hlen.
  assert (Hf : filter (λ p, post_id p = i) posts
               ≡ₚ filter (λ p, post_id p = i) posts') by by rewrite Hperm.
  destruct (filter _ posts) as [|p [|q l]]; simpl in Hlen; [| |lia].
  - apply Permutation_nil_l in Hf. by rewrite Hf.
  - apply Permutation_singleton_l in Hf. by rewrite Hf.
Qed.

(** X19. For documents with distinct ids the order of the list given to
    [from_posts] decides neither which documents are stored, nor which pairs
    are joined, nor the keywords a pair shares. *)
Theorem insertion_order_irrelevant posts posts' T a b :
  posts ≡ₚ posts' → NoDup (post_id <$> posts) →
  get_post (from_posts posts T) a = get_post (from_posts posts' T) a ∧
  (is_Some (edge_at (from_posts posts T) a b) ↔
   is_Some (edge_at (from_posts posts' T) a b)) ∧
  get_shared_keywords (from_posts posts T) a b
    = get_shared_keywords (from_posts posts' T) a b.
Proof.
  intros Hperm Hnd.
  destruct (reachable_wf _ _ (from_posts_reachable posts T)) as [Hwf HT].
  destruct (reachable_wf _ _ (from_posts_reachable posts' T)) as [Hwf' HT'].
  pose proof (get_post_from_posts_perm posts posts' T) as Hg.
  assert (Hnd' : NoDup (post_id <$> posts')) by by rewrite <- Hperm.
  assert (Hto : ∀ ps ps', wf (from_posts ps T) → wf (from_posts ps' T) →
            min_shared_keywords (from_posts ps T) = T →
            min_shared_keywords (from_posts ps' T) = T →
            (∀ i, get_post (from_posts ps T) i = get_post (from_posts ps' T) i) →
            ∀ e, edge_at (from_posts ps T) a b = Some e →
                 ∃ e', edge_at (from_posts ps' T) a b = Some e' ∧
                       shared_keywords e' = shared_keywords e).
  { intros ps ps' W W' HTs HTs' Hget e.
    intros (pa & pb & Hpa & Hpb & Hne & Hs & Hle & ->)%(wf_edges _ W).
    unfold get_post in Hget. rewrite HTs in Hle.
    eexists. split.
    - apply (wf_edges _ W'). exists pa, pb.
      split_and!; [by rewrite <- Hget | by rewrite <- Hget | done | done
                  | by rewrite HTs' | reflexivity].
    - done. }
  assert (H1 := Hto posts posts' Hwf Hwf' HT HT' (λ i, Hg i Hperm Hnd)).
  assert (H2 := Hto posts' posts Hwf' Hwf HT' HT
                  (λ i, eq_sym (Hg i Hperm Hnd))).
  split_and!.
  - by apply Hg.
  - split; intros [e He]; [destruct (H1 e He) as (? & ? & _)
                          | destruct (H2 e He) as (? & ? & _)]; eauto.
  - unfold get_shared_keywords.
    destruct (edge_at (from_posts posts T) a b) as [e|] eqn:E.
    + destruct (H1 e eq_refl) as (e' & -> & ?). done.
    + destruct (edge_at (from_posts posts' T) a b) as [e'|] eqn:E'; [|done].
      destruct (H2 e' eq_refl) as (? & ? & _). congruence.
Qed.

Lemma insertion_order_irrelevant_witness :
  get_shared_keywords (from_posts [doc_A; doc_B; doc_C] 2) "A" "B"
  = get_shared_keywords (from_posts [doc_C; doc_B; doc_A] 2) "A" "B".
Proof.
  apply (insertion_order_irrelevant [doc_A; doc_B; doc_C] [doc_C; doc_B; doc_A]).
  - apply (Permutation_rev [doc_A; doc_B; doc_C]).
  - apply (bool_decide_eq_true_1 _). vm_compute. reflexivity.
Defined.
